(** * godepgraph: dependency-graph resolver and renderer

    A shallow embedding of [main.go]: the package store, the recursive
    resolver [processPackage], the filter [isIgnored], the identity
    allocator [getId], the import normaliser [getImports] and the
    renderer loop of [main], followed by the properties of the
    specification that concern them. *)

From Stdlib Require Import ZArith Ascii String DecimalString.
From stdpp Require Import gmap strings list fin_maps.

Local Open Scope Z_scope.

(** ** Strings *)

Definition comma : ascii := ","%char.

(** [strings.Split(s, ",")]: the fields of [s] between commas; the empty
    string yields one empty field. *)
Fixpoint split_comma (s : string) : list string :=
  match s with
  | EmptyString => [EmptyString]
  | String c rest =>
      if Ascii.eqb c comma then EmptyString :: split_comma rest
      else match split_comma rest with
           | [] => [String c EmptyString]
           | f :: fs => String c f :: fs
           end
  end.

(** [strings.HasPrefix(s, p)]. *)
Definition HasPrefix (s p : string) : bool := String.prefix p s.

(** ** Data model *)

(** The fields of [build.Package] that the program reads. *)
Record Package := mkPackage {
  ImportPath : string;
  Goroot : bool;
  CgoFiles : list string;
  Imports : list string;
  TestImports : list string;
  XTestImports : list string
}.

Global Instance Package_eq_dec : EqDecision Package.
Proof. solve_decision. Defined.

(** The command-line flags, as [flag.Parse] leaves them. *)
Record Flags := mkFlags {
  ignoreStdlib : bool;
  delveGoroot : bool;
  ignorePrefixes : string;
  ignorePackages : string;
  onlyPrefix : string;
  tagList : string;
  horizontal : bool;
  includeTests : bool
}.

Definition defaultFlags : Flags :=
  mkFlags false false EmptyString EmptyString EmptyString EmptyString false false.

(** The package-level filter variables once [main] has filled them from
    the flags, together with the flags themselves. *)
Record Config := mkConfig {
  flags : Flags;
  ignored : gmap string bool;
  ignoredPrefixes : list string;
  onlyPrefixes : list string;
  buildTags : list string
}.

(** The initial value of [ignored]: the cgo pseudo-package. *)
Definition ignored0 : gmap string bool := {[ "C"%string := true ]}.

Definition is_empty_string (s : string) : bool :=
  match s with EmptyString => true | _ => false end.

(** [strings.Split] guarded by [!= ""], leaving the slice nil otherwise. *)
Definition split_flag (s : string) : list string :=
  if is_empty_string s then [] else split_comma s.

(** Lines 47-61 of [main]: the flags are turned into the filter variables. *)
Definition configure (fl : Flags) : Config :=
  {| flags := fl;
     ignored := foldl (fun m p => <[p := true]> m) ignored0
                      (split_flag (ignorePackages fl));
     ignoredPrefixes := split_flag (ignorePrefixes fl);
     onlyPrefixes := split_flag (onlyPrefix fl);
     buildTags := split_flag (tagList fl) |}.

(** Reading a [map[string]bool]: a missing key reads as [false]. *)
Definition ignored_at (cfg : Config) (name : string) : bool :=
  default false (ignored cfg !! name).

(** ** Filter engine *)

Fixpoint hasPrefixes (s : string) (prefixes : list string) : bool :=
  match prefixes with
  | [] => false
  | p :: rest => if HasPrefix s p then true else hasPrefixes s rest
  end.

Definition isIgnored (cfg : Config) (pkg : Package) : bool :=
  if (0 <? Z.of_nat (length (onlyPrefixes cfg)))
     && negb (hasPrefixes (ImportPath pkg) (onlyPrefixes cfg))
  then true
  else ignored_at cfg (ImportPath pkg)
       || (Goroot pkg && ignoreStdlib (flags cfg))
       || hasPrefixes (ImportPath pkg) (ignoredPrefixes cfg).

(** ** Import normalisation *)

(** The loop of [getImports]: [found] is the set of paths already kept,
    [imports] the slice built so far. *)
Fixpoint getImports_loop (self : string) (allImports : list string)
    (found : gset string) (imports : list string) : list string :=
  match allImports with
  | [] => imports
  | imp :: rest =>
      if String.eqb imp self then getImports_loop self rest found imports
      else if decide (imp ∈ found) then getImports_loop self rest found imports
      else getImports_loop self rest ({[imp]} ∪ found) (imports ++ [imp])
  end.

Definition allImports (cfg : Config) (pkg : Package) : list string :=
  if includeTests (flags cfg)
  then (Imports pkg ++ TestImports pkg) ++ XTestImports pkg
  else Imports pkg.

Definition getImports (cfg : Config) (pkg : Package) : list string :=
  getImports_loop (ImportPath pkg) (allImports cfg pkg) ∅ [].

(** ** Identity allocator *)

(** Go's [int] on the 64-bit targets: [nextId++] wraps at [2^63 - 1]. *)
Definition max_int : Z := 2 ^ 63 - 1.
Definition min_int : Z := - 2 ^ 63.
Definition int_incr (n : Z) : Z := if n =? max_int then min_int else n + 1.

Record Alloc := mkAlloc {
  ids : gmap string Z;
  nextId : Z
}.

Definition alloc0 : Alloc := mkAlloc ∅ 0.

Definition getId (name : string) (a : Alloc) : Z * Alloc :=
  match ids a !! name with
  | Some id => (id, a)
  | None =>
      let id := nextId a in
      (id, mkAlloc (<[name := id]> (ids a)) (int_incr (nextId a)))
  end.

(** A run of calls, in order, with the identifiers they return. *)
Fixpoint getIds (names : list string) (a : Alloc) : list Z * Alloc :=
  match names with
  | [] => ([], a)
  | n :: rest =>
      let '(id, a1) := getId n a in
      let '(rs, a2) := getIds rest a1 in
      (id :: rs, a2)
  end.

(** ** Package-metadata provider *)

(** The result of [buildContext.Import]: a descriptor, or the text of
    the error. *)
Inductive ImportResult :=
  | Found (pkg : Package)
  | NotFound (err : string).

(** [buildContext.Import(path, srcDir, 0)] under the given build tags.
    The provider is external; the resolver is parametric in it. *)
Definition Provider := list string -> string -> string -> ImportResult.

(** ** Import resolver *)

(** The package store [pkgs], and the import paths handed to the
    provider so far, oldest first. *)
Record Resolver := mkResolver {
  pkgs : gmap string Package;
  lookups : list string
}.

Definition resolver0 : Resolver := mkResolver ∅ [].

(** The [error] a call returns: [nil], or a message. *)
Inductive Outcome :=
  | Done
  | Failed (err : string).

(** [fmt.Errorf("failed to import %s: %s", pkgName, err)]. *)
Definition import_error (pkgName err : string) : string :=
  "failed to import " +:+ pkgName +:+ ": " +:+ err.

(** The loop at the end of [processPackage], over the recursive call
    [rec]: an import already in the store is skipped. *)
Fixpoint processImports (rec : string -> Resolver -> option (Resolver * Outcome))
    (imps : list string) (st : Resolver) : option (Resolver * Outcome) :=
  match imps with
  | [] => Some (st, Done)
  | imp :: rest =>
      match pkgs st !! imp with
      | Some _ => processImports rec rest st
      | None =>
          match rec imp st with
          | None => None
          | Some (st1, Failed err) => Some (st1, Failed err)
          | Some (st1, Done) => processImports rec rest st1
          end
      end
  end.

(** [processPackage(root, pkgName)]. [fuel] bounds the depth of the
    recursion; [None] means the bound was reached. *)
Fixpoint processPackage (provider : Provider) (cfg : Config) (fuel : nat)
    (root pkgName : string) (st : Resolver) : option (Resolver * Outcome) :=
  match fuel with
  | O => None
  | S fuel' =>
      if ignored_at cfg pkgName then Some (st, Done)
      else
        let st1 := mkResolver (pkgs st) (lookups st ++ [pkgName]) in
        match provider (buildTags cfg) pkgName root with
        | NotFound err => Some (st1, Failed (import_error pkgName err))
        | Found pkg =>
            if isIgnored cfg pkg then Some (st1, Done)
            else
              let st2 := mkResolver (<[ImportPath pkg := pkg]> (pkgs st1)) (lookups st1) in
              if Goroot pkg && negb (delveGoroot (flags cfg)) then Some (st2, Done)
              else processImports (processPackage provider cfg fuel' root)
                                  (getImports cfg pkg) st2
        end
  end.

(** ** Graph renderer *)

Inductive Stmt :=
  | Header
  | Rankdir
  | NodeStmt (id : Z) (label color : string)
  | EdgeStmt (src dst : Z)
  | Footer.

Global Instance Stmt_eq_dec : EqDecision Stmt.
Proof. solve_decision. Defined.

Definition dquote : string := String (ascii_of_nat 34) EmptyString.
Definition newline : string := String (ascii_of_nat 10) EmptyString.

(** The verb [%d]. *)
Definition show_int (n : Z) : string := NilZero.string_of_int (Z.to_int n).

(** The text each statement stands for on standard output. *)
Definition show (s : Stmt) : string :=
  match s with
  | Header => "digraph godep {" +:+ newline
  | Rankdir => "rankdir=" +:+ dquote +:+ "LR" +:+ dquote +:+ newline
  | NodeStmt id label color =>
      show_int id +:+ " [label=" +:+ dquote +:+ label +:+ dquote
        +:+ " style=" +:+ dquote +:+ "filled" +:+ dquote
        +:+ " color=" +:+ dquote +:+ color +:+ dquote +:+ "];" +:+ newline
  | EdgeStmt src dst => show_int src +:+ " -> " +:+ show_int dst +:+ ";" +:+ newline
  | Footer => "}" +:+ newline
  end.

Definition color_of (pkg : Package) : string :=
  if Goroot pkg then "palegreen"
  else if 0 <? Z.of_nat (length (CgoFiles pkg)) then "darkgoldenrod1"
  else "paleturquoise".

(** The inner loop of [main]: the edges of one package. *)
Fixpoint renderImports (cfg : Config) (store : gmap string Package) (pkgId : Z)
    (imps : list string) (a : Alloc) (out : list Stmt) : Alloc * list Stmt :=
  match imps with
  | [] => (a, out)
  | imp :: rest =>
      match store !! imp with
      | None => renderImports cfg store pkgId rest a out
      | Some impPkg =>
          if isIgnored cfg impPkg then renderImports cfg store pkgId rest a out
          else
            let '(impId, a1) := getId imp a in
            renderImports cfg store pkgId rest a1 (out ++ [EdgeStmt pkgId impId])
      end
  end.

(** The body of the outer loop of [main], for one entry of the store. *)
Definition renderPackage (cfg : Config) (store : gmap string Package)
    (entry : string * Package) (a : Alloc) (out : list Stmt) : Alloc * list Stmt :=
  let '(pkgName, pkg) := entry in
  let '(pkgId, a1) := getId pkgName a in
  if isIgnored cfg pkg then (a1, out)
  else
    let out1 := out ++ [NodeStmt pkgId pkgName (color_of pkg)] in
    if Goroot pkg && negb (delveGoroot (flags cfg)) then (a1, out1)
    else renderImports cfg store pkgId (getImports cfg pkg) a1 out1.

(** [for pkgName, pkg := range pkgs]: the entries come in an order the
    language leaves open, so the loop is run over a given enumeration. *)
Fixpoint renderPackages (cfg : Config) (store : gmap string Package)
    (entries : list (string * Package)) (a : Alloc) (out : list Stmt)
    : Alloc * list Stmt :=
  match entries with
  | [] => (a, out)
  | e :: rest =>
      let '(a1, out1) := renderPackage cfg store e a out in
      renderPackages cfg store rest a1 out1
  end.

(** An enumeration of a map as [range] may produce it. *)
Definition Range := gmap string Package -> list (string * Package).

Definition range_ok (range : Range) : Prop :=
  forall m, range m ≡ₚ map_to_list m.

(** ** The program *)

(** What a run leaves behind: the two output streams and the exit
    status, with the store, the provider lookups and the allocator kept
    for the statements below. The time stamp that [log] puts before a
    message is not part of [stderr]. *)
Record Run := mkRun {
  store : gmap string Package;
  provider_calls : list string;
  alloc : Alloc;
  stdout : list Stmt;
  stderr : list string;
  exit_code : Z
}.

(** [log.Fatal(msg)]: the message goes to the error stream and the
    process exits with status 1. *)
Definition fatal (st : Resolver) (msg : string) : Run :=
  mkRun (pkgs st) (lookups st) alloc0 [] [msg] 1.

Definition header (cfg : Config) : list Stmt :=
  Header :: (if horizontal (flags cfg) then [Rankdir] else []).

Definition render (cfg : Config) (range : Range) (st : Resolver) : Run :=
  let '(a, out) := renderPackages cfg (pkgs st) (range (pkgs st)) alloc0 (header cfg) in
  mkRun (pkgs st) (lookups st) a (out ++ [Footer]) [] 0.

(** [main]: [args] are the non-flag arguments and [getwd] the result of
    [os.Getwd]. *)
Definition main (provider : Provider) (range : Range) (fl : Flags)
    (args : list string) (getwd : string + string) (fuel : nat) : option Run :=
  match args with
  | [root] =>
      let cfg := configure fl in
      match getwd with
      | inr err => Some (fatal resolver0 ("failed to get cwd: " +:+ err))
      | inl cwd =>
          match processPackage provider cfg fuel cwd root resolver0 with
          | None => None
          | Some (st, Failed err) => Some (fatal st err)
          | Some (st, Done) => Some (render cfg range st)
          end
      end
  | _ => Some (fatal resolver0 "need one package name to process")
  end.

(** ** Reading the output *)

Definition node_labels (out : list Stmt) : list string :=
  omap (fun s => match s with NodeStmt _ l _ => Some l | _ => None end) out.

Definition edges (out : list Stmt) : list (Z * Z) :=
  omap (fun s => match s with EdgeStmt i j => Some (i, j) | _ => None end) out.

(** The label of the first node statement that carries [id]. *)
Fixpoint label_of (out : list Stmt) (id : Z) : option string :=
  match out with
  | [] => None
  | NodeStmt i l _ :: rest => if i =? id then Some l else label_of rest id
  | _ :: rest => label_of rest id
  end.

(** The edges of the output with both ends named by their labels. *)
Definition labelled_edges (out : list Stmt) : list (option string * option string) :=
  (fun '(i, j) => (label_of out i, label_of out j)) <$> edges out.

(** ** The specification's wording of import normalisation *)

(** Keep the first occurrence of every element, in order. *)
Fixpoint first_occurrences (l : list string) : list string :=
  match l with
  | [] => []
  | x :: rest => x :: filter (fun y => y <> x) (first_occurrences rest)
  end.

(** Self-references removed, duplicates collapsed to their first
    occurrence. *)
Definition normalised_imports (self : string) (l : list string) : list string :=
  first_occurrences (filter (fun y => y <> self) l).

(** [s] starts with [p]. *)
Definition starts_with (s p : string) : Prop := exists rest, s = p +:+ rest.

(** [path] is an entry of the exact-match denylist. *)
Definition in_denylist (cfg : Config) (path : string) : Prop :=
  ignored cfg !! path = Some true.

(** ** Invariants *)

(** The allocator has handed out [0 .. nextId - 1], one identifier per
    path. *)
Definition alloc_ok (a : Alloc) : Prop :=
  nextId a = Z.of_nat (size (ids a)) /\
  (forall k v, ids a !! k = Some v -> 0 <= v < nextId a) /\
  (forall k1 k2 v, ids a !! k1 = Some v -> ids a !! k2 = Some v -> k1 = k2).

(** ** The renderer, with the identifiers known in advance *)

(** The identifier the allocator holds for [k]. *)
Definition id_in (a : Alloc) (k : string) : Z := default 0 (ids a !! k).

(** An import gets an edge when its descriptor is stored and passes the
    filter. *)
Definition drawn (cfg : Config) (store : gmap string Package) (imp : string) : bool :=
  match store !! imp with
  | Some impPkg => negb (isIgnored cfg impPkg)
  | None => false
  end.

Definition edge_targets (cfg : Config) (store : gmap string Package)
    (pkg : Package) : list string :=
  if Goroot pkg && negb (delveGoroot (flags cfg)) then []
  else filter (fun imp => drawn cfg store imp = true) (getImports cfg pkg).

(** The statements one entry of the store contributes, under the
    identifier assignment [idf]. *)
Definition statements_of (cfg : Config) (store : gmap string Package)
    (idf : string -> Z) (entry : string * Package) : list Stmt :=
  if isIgnored cfg entry.2 then []
  else NodeStmt (idf entry.1) entry.1 (color_of entry.2)
       :: ((fun imp => EdgeStmt (idf entry.1) (idf imp)) <$> edge_targets cfg store entry.2).

(** The paths one entry makes the renderer ask an identifier for. *)
Definition named_by (cfg : Config) (store : gmap string Package)
    (entry : string * Package) : list string :=
  entry.1 :: (if isIgnored cfg entry.2 then [] else edge_targets cfg store entry.2).

(** Every path with an identifier is a key of the store. *)
Definition within (a : Alloc) (store : gmap string Package) : Prop :=
  forall k, is_Some (ids a !! k) -> is_Some (store !! k).

(** The (source, target) pairs of paths one entry draws edges for. *)
Definition edge_pairs (cfg : Config) (store : gmap string Package)
    (entry : string * Package) : list (string * string) :=
  if isIgnored cfg entry.2 then []
  else (fun imp => (entry.1, imp)) <$> edge_targets cfg store entry.2.

(** Every key of the store is the import path of its descriptor, and
    every stored descriptor passes the filter. *)
Definition store_ok (cfg : Config) (store : gmap string Package) : Prop :=
  forall k p, store !! k = Some p -> ImportPath p = k /\ isIgnored cfg p = false.

(** ** The resolver as a relation *)

(** The resolver state once [name] has been handed to the provider. *)
Definition logged (name : string) (st : Resolver) : Resolver :=
  mkResolver (pkgs st) (lookups st ++ [name]).

(** [pkgs[pkg.ImportPath] = pkg]. *)
Definition stored (pkg : Package) (st : Resolver) : Resolver :=
  mkResolver (<[ImportPath pkg := pkg]> (pkgs st)) (lookups st).

(** [resolves name st st' r]: a call [processPackage(root, name)] made in
    state [st] returns [r] and leaves [st']; one rule per path through
    the function. [resolves_imports] is its loop. *)
Inductive resolves (provider : Provider) (cfg : Config) (root : string)
    : string -> Resolver -> Resolver -> Outcome -> Prop :=
  | resolves_denied name st :
      ignored_at cfg name = true ->
      resolves provider cfg root name st st Done
  | resolves_failed name st err :
      ignored_at cfg name = false ->
      provider (buildTags cfg) name root = NotFound err ->
      resolves provider cfg root name st (logged name st) (Failed (import_error name err))
  | resolves_filtered name st pkg :
      ignored_at cfg name = false ->
      provider (buildTags cfg) name root = Found pkg ->
      isIgnored cfg pkg = true ->
      resolves provider cfg root name st (logged name st) Done
  | resolves_leaf name st pkg :
      ignored_at cfg name = false ->
      provider (buildTags cfg) name root = Found pkg ->
      isIgnored cfg pkg = false ->
      Goroot pkg && negb (delveGoroot (flags cfg)) = true ->
      resolves provider cfg root name st (stored pkg (logged name st)) Done
  | resolves_node name st pkg st' r :
      ignored_at cfg name = false ->
      provider (buildTags cfg) name root = Found pkg ->
      isIgnored cfg pkg = false ->
      Goroot pkg && negb (delveGoroot (flags cfg)) = false ->
      resolves_imports provider cfg root (getImports cfg pkg)
                       (stored pkg (logged name st)) st' r ->
      resolves provider cfg root name st st' r
with resolves_imports (provider : Provider) (cfg : Config) (root : string)
    : list string -> Resolver -> Resolver -> Outcome -> Prop :=
  | imports_nil st :
      resolves_imports provider cfg root [] st st Done
  | imports_skip imp rest st st' r pkg :
      pkgs st !! imp = Some pkg ->
      resolves_imports provider cfg root rest st st' r ->
      resolves_imports provider cfg root (imp :: rest) st st' r
  | imports_fail imp rest st st1 err :
      pkgs st !! imp = None ->
      resolves provider cfg root imp st st1 (Failed err) ->
      resolves_imports provider cfg root (imp :: rest) st st1 (Failed err)
  | imports_next imp rest st st1 st' r :
      pkgs st !! imp = None ->
      resolves provider cfg root imp st st1 Done ->
      resolves_imports provider cfg root rest st1 st' r ->
      resolves_imports provider cfg root (imp :: rest) st st' r.

Scheme resolves_mut := Minimality for resolves Sort Prop
  with resolves_imports_mut := Minimality for resolves_imports Sort Prop.
Combined Scheme resolves_mutind from resolves_mut, resolves_imports_mut.



(** ** Conditions on the provider *)




(** The provider returns every descriptor under the path it was asked
    for, and the imports of every descriptor lie in [universe]. *)
Definition provider_closed (provider : Provider) (cfg : Config) (root : string)
    (universe : list string) : Prop :=
  forall name pkg,
    provider (buildTags cfg) name root = Found pkg ->
    ImportPath pkg = name /\
    forall imp, imp ∈ getImports cfg pkg -> imp ∈ universe.

(** The paths of [universe] not yet stored. *)
Definition pending (universe : list string) (st : Resolver) : gset string :=
  list_to_set universe ∖ dom (pkgs st).

(** ** A sample workspace *)

Definition pkg_of (path : string) (goroot : bool) (imports : list string) : Package :=
  mkPackage path goroot [] imports [] [].

Definition sample_packages : list Package :=
  [ pkg_of "app" false ["lib/a"; "lib/b"];
    pkg_of "lib/a" false ["lib/b"];
    pkg_of "lib/b" false [];
    pkg_of "cmd/tool" false ["fmt"; "os"];
    pkg_of "fmt" true ["errors"; "os"];
    pkg_of "os" true ["errors"];
    pkg_of "errors" true [];
    pkg_of "broken" false ["lib/b"; "missing"];
    mkPackage "svc" false [] ["lib/a"; "lib/b"; "lib/a"] ["lib/b"; "svc"] ["svc"; "lib/a"] ].

(** A provider that knows the packages above, each under its own import
    path, whatever the tags and the directory. *)
Definition sample_provider : Provider :=
  fun _ path _ =>
    match List.find (fun p => String.eqb (ImportPath p) path) sample_packages with
    | Some p => Found p
    | None => NotFound "cannot find package"
    end.

(** The flags [-i lib/b]. *)
Definition exclude_lib_b : Flags :=
  mkFlags false false EmptyString "lib/b" EmptyString EmptyString false false.

(** ** Comma-separated lists *)

(** [strings.Join(fields, ",")]. *)
Fixpoint join_comma (fields : list string) : string :=
  match fields with
  | [] => EmptyString
  | [f] => f
  | f :: rest => f +:+ String comma (join_comma rest)
  end.

(** [strings.Contains(s, ",")]. *)
Fixpoint has_comma (s : string) : bool :=
  match s with
  | EmptyString => false
  | String c rest => Ascii.eqb c comma || has_comma rest
  end.

(** [fields] are the fields of the comma-separated [flag]: none for the
    empty flag; otherwise at least one, none of which holds a comma,
    and joined by commas they are the flag. *)
Definition fields_of (flag : string) (fields : list string) : Prop :=
  (flag = EmptyString -> fields = []) /\
  (flag <> EmptyString ->
   fields <> [] /\
   Forall (fun f => has_comma f = false) fields /\
   join_comma fields = flag).


(** A statement of the body of the graph: a node or an edge. *)
Definition is_node_or_edge (s : Stmt) : bool :=
  match s with
  | NodeStmt _ _ _ | EdgeStmt _ _ => true
  | _ => false
  end.

(** The run was aborted: nothing on standard output, one message on the
    error stream, exit status 1. *)
Definition aborted (run : Run) : Prop :=
  exit_code run = 1 /\ stdout run = [] /\ exists msg, stderr run = [msg].

(** The run printed a whole graph: the opening line, the [rankdir] line
    exactly when [-horizontal] is set, node and edge statements only,
    the closing line; nothing on the error stream, exit status 0. *)
Definition whole_graph (fl : Flags) (run : Run) : Prop :=
  exit_code run = 0 /\ stderr run = [] /\
  exists body,
    stdout run = Header :: (if horizontal fl then [Rankdir] else [])
                 ++ body ++ [Footer] /\
    Forall (fun s => is_node_or_edge s = true) body.


(** ** The packages a run should find *)

(** The descriptor the resolver stores for [name] once it is asked to
    resolve it: none when the name is in the exact denylist, the
    provider fails, or the descriptor fails the filter. *)
Definition accepted (provider : Provider) (cfg : Config) (root name : string)
    : option Package :=
  if ignored_at cfg name then None
  else match provider (buildTags cfg) name root with
       | Found pkg => if isIgnored cfg pkg then None else Some pkg
       | NotFound _ => None
       end.

(** The resolver goes on to the imports of [pkg]. *)
Definition expands (cfg : Config) (pkg : Package) : bool :=
  negb (Goroot pkg && negb (delveGoroot (flags cfg))).

(** The paths that can be reached from [top] through the imports of
    accepted packages that are expanded. *)
Inductive reachable (provider : Provider) (cfg : Config) (root top : string)
    : string -> Prop :=
  | reachable_top pkg :
      accepted provider cfg root top = Some pkg ->
      reachable provider cfg root top top
  | reachable_import name pkg imp q :
      reachable provider cfg root top name ->
      accepted provider cfg root name = Some pkg ->
      expands cfg pkg = true ->
      imp ∈ getImports cfg pkg ->
      accepted provider cfg root imp = Some q ->
      reachable provider cfg root top imp.

(** The provider returns every descriptor under the path it was asked
    for. *)
Definition provider_canonical (provider : Provider) (cfg : Config) (root : string) : Prop :=
  forall name pkg,
    provider (buildTags cfg) name root = Found pkg -> ImportPath pkg = name.

(** Every new key of [st'] whose package is expanded has all its
    accepted imports stored in [st']. *)
Definition closed_since (provider : Provider) (cfg : Config) (root : string)
    (st st' : Resolver) : Prop :=
  forall k pk imp,
    is_Some (pkgs st' !! k) -> pkgs st !! k = None ->
    accepted provider cfg root k = Some pk -> expands cfg pk = true ->
    imp ∈ getImports cfg pk ->
    is_Some (accepted provider cfg root imp) ->
    is_Some (pkgs st' !! imp).


(** Every stored descriptor is the accepted one of a path reachable
    from [top]. *)
Definition store_sound (provider : Provider) (cfg : Config) (root top : string)
    (st : Resolver) : Prop :=
  forall k p,
    pkgs st !! k = Some p ->
    reachable provider cfg root top k /\ accepted provider cfg root k = Some p.


(** The lookups made so far and the store agree: no accepted path was
    looked up twice, every accepted path that was looked up is stored,
    and every stored path was looked up and is accepted. *)
Definition lookups_ok (provider : Provider) (cfg : Config) (root : string)
    (st : Resolver) : Prop :=
  NoDup (filter (fun k => is_Some (accepted provider cfg root k)) (lookups st)) /\
  (forall k, k ∈ lookups st -> is_Some (accepted provider cfg root k) ->
             is_Some (pkgs st !! k)) /\
  (forall k, is_Some (pkgs st !! k) ->
             k ∈ lookups st /\ is_Some (accepted provider cfg root k)).


(** The paths the sample workspace mentions. *)
Definition sample_universe : list string :=
  ["app"; "lib/a"; "lib/b"; "cmd/tool"; "fmt"; "os"; "errors"; "broken"; "svc";
   "missing"].


(** ** A workspace with vendored packages *)

(** The answers of a provider that resolves some paths under another
    import path, as [go/build] does for the packages of a [vendor]
    directory: the path asked for, and the descriptor returned. The
    external test of [vendor/v] imports [v]. *)
Definition vendored_packages : list (string * Package) :=
  [ ("app", pkg_of "app" false ["x"; "lib"]);
    ("lib", pkg_of "lib" false ["x"]);
    ("x", pkg_of "app/vendor/x" false []);
    ("tool", pkg_of "tool" false ["y"; "vendor/y"]);
    ("y", pkg_of "vendor/y" true []);
    ("vendor/y", pkg_of "vendor/vendor/y" true []);
    ("v", mkPackage "vendor/v" false [] [] [] ["v"]) ]%string.

Definition vendoring_provider : Provider :=
  fun _ path _ =>
    match List.find (fun e => String.eqb (fst e) path) vendored_packages with
    | Some e => Found (snd e)
    | None => NotFound "cannot find package"
    end.

(** * Properties *)

(** ** Strings and the filter *)

Lemma HasPrefix_spec (s p : string) :
  HasPrefix s p = true <-> starts_with s p.
Proof.
  unfold HasPrefix, starts_with. revert s.
  induction p as [|a p IH]; intros s; simpl.
  - split; [intros _; exists s; reflexivity | by destruct s].
  - destruct s as [|b s]; simpl.
    + split; [done | intros [r Hr]; discriminate].
    + destruct (ascii_dec a b) as [->|Hne].
      * rewrite IH. split; intros [r Hr]; exists r; [by rewrite Hr | by injection Hr].
      * split; [done | intros [r Hr]; injection Hr; congruence].
Qed.

Lemma hasPrefixes_spec (s : string) (prefixes : list string) :
  hasPrefixes s prefixes = true <-> exists p, p ∈ prefixes /\ starts_with s p.
Proof.
  induction prefixes as [|p ps IH]; simpl.
  - split; [done | intros (p & Hp & _); by apply elem_of_nil in Hp].
  - destruct (HasPrefix s p) eqn:Hp.
    + split; [intros _ | done]. exists p. split; [left | by apply HasPrefix_spec].
    + rewrite IH. split.
      * intros (q & Hq & Hs). exists q. split; [by right | done].
      * intros (q & Hq & Hs). apply elem_of_cons in Hq as [-> | Hq].
        -- apply HasPrefix_spec in Hs. congruence.
        -- by exists q.
Qed.

Lemma hasPrefixes_false (s : string) (prefixes : list string) :
  hasPrefixes s prefixes = false <->
  forall p, p ∈ prefixes -> ~ starts_with s p.
Proof.
  rewrite <- not_true_iff_false, hasPrefixes_spec. split.
  - intros Hn p Hp Hs. apply Hn. by exists p.
  - intros Hall (p & Hp & Hs). by apply (Hall p).
Qed.

Lemma configure_ignored_true (l : list string) (m : gmap string bool) :
  (forall k v, m !! k = Some v -> v = true) ->
  forall k v, foldl (fun m p => <[p := true]> m) m l !! k = Some v -> v = true.
Proof.
  revert m. induction l as [|p l IH]; intros m Hm k v; simpl; [by apply Hm|].
  apply IH. intros k' v'. rewrite lookup_insert.
  case_decide; [congruence | by apply Hm].
Qed.

Lemma configure_ignored_keeps (l : list string) (m : gmap string bool) (k : string) :
  m !! k = Some true ->
  foldl (fun m p => <[p := true]> m) m l !! k = Some true.
Proof.
  revert m. induction l as [|p l IH]; intros m Hm; simpl; [done|].
  apply IH. rewrite lookup_insert. by case_decide.
Qed.

Lemma ignored_at_true (cfg : Config) (path : string) :
  ignored_at cfg path = true <-> in_denylist cfg path.
Proof.
  unfold ignored_at, in_denylist.
  destruct (ignored cfg !! path) as [[]|]; simpl; split; congruence.
Qed.

(** C1. [isIgnored] holds exactly when the allowlist is non-empty and no
    entry of it is a prefix of the path, or the path is in the exact
    denylist, or the package is in the standard library and [-s] is set,
    or some entry of the prefix denylist is a prefix of the path; the
    denylist built by [main] always holds ["C"] (and only [true]
    values); and with a non-empty allowlist a path that matches none of
    its entries is excluded whatever the other settings are. *)
Theorem isIgnored_characterisation :
  (forall cfg pkg,
     isIgnored cfg pkg = true <->
       (onlyPrefixes cfg <> [] /\
        forall p, p ∈ onlyPrefixes cfg -> ~ starts_with (ImportPath pkg) p)
       \/ in_denylist cfg (ImportPath pkg)
       \/ (Goroot pkg = true /\ ignoreStdlib (flags cfg) = true)
       \/ exists p, p ∈ ignoredPrefixes cfg /\ starts_with (ImportPath pkg) p)
  /\ (forall fl,
        in_denylist (configure fl) "C" /\
        forall k v, ignored (configure fl) !! k = Some v -> v = true)
  /\ (forall cfg pkg,
        onlyPrefixes cfg <> [] ->
        (forall p, p ∈ onlyPrefixes cfg -> ~ starts_with (ImportPath pkg) p) ->
        isIgnored cfg pkg = true).
Proof.
  assert (Hallow : forall cfg pkg,
    (0 <? Z.of_nat (length (onlyPrefixes cfg)))
      && negb (hasPrefixes (ImportPath pkg) (onlyPrefixes cfg)) = true <->
    onlyPrefixes cfg <> [] /\
    forall p, p ∈ onlyPrefixes cfg -> ~ starts_with (ImportPath pkg) p).
  { intros cfg pkg. rewrite andb_true_iff, negb_true_iff, hasPrefixes_false.
    rewrite Z.ltb_lt. destruct (onlyPrefixes cfg); simpl; split; intros [H1 H2];
      split; try done; lia. }
  split; [|split].
  - intros cfg pkg. unfold isIgnored.
    destruct ((0 <? Z.of_nat (length (onlyPrefixes cfg)))
              && negb (hasPrefixes (ImportPath pkg) (onlyPrefixes cfg))) eqn:Ha.
    + apply Hallow in Ha. split; [intros _; by left | done].
    + rewrite !orb_true_iff, andb_true_iff, ignored_at_true, hasPrefixes_spec.
      split.
      * intros [[H | H] | H]; [right; by left | right; right; by left | by do 3 right].
      * intros [H | [H | [H | H]]]; [|by left; left | by left; right | by right].
        apply Hallow in H. congruence.
  - intros fl. unfold in_denylist, configure; simpl. split.
    + apply configure_ignored_keeps. by apply lookup_singleton_eq.
    + apply configure_ignored_true. intros k v.
      unfold ignored0. rewrite lookup_singleton. case_decide; congruence.
  - intros cfg pkg Hne Hno. unfold isIgnored.
    destruct (Hallow cfg pkg) as [_ ->]; done.
Qed.

(** The allowlist [foo/] excludes [bar/baz], here with every other
    setting at its default. *)
Lemma isIgnored_characterisation_witness :
  isIgnored (configure (mkFlags false false EmptyString EmptyString "foo/" EmptyString false false))
            (mkPackage "bar/baz" false [] [] [] []) = true.
Proof.
  apply (proj2 (proj2 isIgnored_characterisation)).
  - simpl. discriminate.
  - simpl. intros p Hp [rest Hrest].
    apply list_elem_of_singleton in Hp. subst p. simpl in Hrest. discriminate.
Defined.

(** ** Identity allocator *)

Lemma int_incr_small (n : Z) : n < max_int -> int_incr n = n + 1.
Proof. unfold int_incr. intros H. destruct (Z.eqb_spec n max_int); [lia | done]. Qed.

Lemma getId_known (k : string) (v : Z) (a : Alloc) :
  ids a !! k = Some v -> getId k a = (v, a).
Proof. unfold getId. by intros ->. Qed.

Lemma getId_fresh (k : string) (a : Alloc) :
  ids a !! k = None ->
  getId k a = (nextId a, mkAlloc (<[k := nextId a]> (ids a)) (int_incr (nextId a))).
Proof. unfold getId. by intros ->. Qed.

Lemma getId_lookup (k : string) (a : Alloc) :
  ids (getId k a).2 !! k = Some (getId k a).1.
Proof.
  destruct (ids a !! k) as [v|] eqn:Hk.
  - by rewrite (getId_known _ _ _ Hk).
  - rewrite (getId_fresh _ _ Hk); simpl. apply lookup_insert_eq.
Qed.

Lemma getId_mono (k : string) (a : Alloc) : ids a ⊆ ids (getId k a).2.
Proof.
  destruct (ids a !! k) as [v|] eqn:Hk.
  - by rewrite (getId_known _ _ _ Hk).
  - rewrite (getId_fresh _ _ Hk); simpl. by apply insert_subseteq.
Qed.

Lemma getId_dom (k k' : string) (a : Alloc) :
  is_Some (ids (getId k a).2 !! k') <-> k' = k \/ is_Some (ids a !! k').
Proof.
  destruct (ids a !! k) as [v|] eqn:Hk.
  - rewrite (getId_known _ _ _ Hk); simpl. split; [by right|].
    intros [-> | H]; [by rewrite Hk | done].
  - rewrite (getId_fresh _ _ Hk); simpl. rewrite lookup_insert_is_Some.
    split; [intros [H | [_ H]]; auto | intros [H | H]; auto].
    destruct (decide (k = k')); [by left | by right].
Qed.

Lemma getId_size (k : string) (a : Alloc) :
  (size (ids (getId k a).2) <= S (size (ids a)))%nat.
Proof.
  destruct (ids a !! k) as [v|] eqn:Hk.
  - rewrite (getId_known _ _ _ Hk); simpl. lia.
  - rewrite (getId_fresh _ _ Hk); simpl. rewrite map_size_insert_None by done. lia.
Qed.

(** The invariant survives a call, as long as a fresh path does not
    meet a counter at its largest value. *)
Lemma getId_ok (k : string) (a : Alloc) :
  alloc_ok a ->
  is_Some (ids a !! k) \/ Z.of_nat (size (ids a)) < max_int ->
  alloc_ok (getId k a).2.
Proof.
  intros (Hn & Hr & Hi) Hb.
  destruct (ids a !! k) as [v|] eqn:Hk.
  - by rewrite (getId_known _ _ _ Hk).
  - destruct Hb as [[? ?] | Hb]; [done|].
    rewrite (getId_fresh _ _ Hk); simpl.
    rewrite int_incr_small by lia.
    split; [|split]; simpl.
    + rewrite map_size_insert_None by done. lia.
    + intros k' v'. rewrite lookup_insert. case_decide.
      * intros [= <-]. lia.
      * intros H'. apply Hr in H'. lia.
    + intros k1 k2 v'. rewrite !lookup_insert.
      repeat case_decide; subst.
      * done.
      * intros [= <-] H'. apply Hr in H'. lia.
      * intros H' [= <-]. apply Hr in H'. lia.
      * apply Hi.
Qed.

Lemma alloc0_ok : alloc_ok alloc0.
Proof.
  split; [|split]; simpl.
  - by rewrite map_size_empty.
  - intros k v. by rewrite lookup_empty.
  - intros k1 k2 v. by rewrite lookup_empty.
Qed.

(** What a run of calls establishes. *)
Lemma getIds_inv (names : list string) :
  forall a0 rs a,
    getIds names a0 = (rs, a) ->
    alloc_ok a0 ->
    Z.of_nat (size (ids a0)) + Z.of_nat (length names) <= max_int ->
    alloc_ok a /\ ids a0 ⊆ ids a /\
    (size (ids a) <= size (ids a0) + length names)%nat /\
    (forall i m, names !! i = Some m ->
                 exists v, rs !! i = Some v /\ ids a !! m = Some v) /\
    (forall k, is_Some (ids a !! k) -> is_Some (ids a0 !! k) \/ k ∈ names).
Proof.
  induction names as [|n names IH]; intros a0 rs a Hrun Hok Hb; simpl in *.
  - injection Hrun as <- <-. split; [done|]. split; [done|]. split; [lia|].
    split; [intros i m Hi; by rewrite lookup_nil in Hi | intros k Hk; by left].
  - destruct (getId n a0) as [id a1] eqn:H1.
    destruct (getIds names a1) as [rs' a2] eqn:H2.
    injection Hrun as <- <-.
    assert (Ha1 : a1 = (getId n a0).2) by by rewrite H1.
    assert (Hid : id = (getId n a0).1) by by rewrite H1.
    pose proof (getId_size n a0) as Hsz. rewrite <- Ha1 in Hsz.
    assert (Hok1 : alloc_ok a1).
    { rewrite Ha1. apply getId_ok; [done | right; lia]. }
    assert (Hb1 : Z.of_nat (size (ids a1)) + Z.of_nat (length names) <= max_int) by lia.
    destruct (IH a1 rs' a2 H2 Hok1 Hb1) as (Hok2 & Hsub & Hsize & Hrs & Hdom).
    pose proof (getId_mono n a0) as Hm. rewrite <- Ha1 in Hm.
    split; [done|]. split; [by etrans|]. split; [lia|]. split.
    + intros [|i] m Hi; simpl in *.
      * injection Hi as <-. exists id. split; [done|].
        eapply lookup_weaken; [|exact Hsub].
        rewrite Ha1, Hid. apply getId_lookup.
      * by apply Hrs.
    + intros k Hk. apply Hdom in Hk as [Hk | Hk].
      * rewrite Ha1 in Hk. apply getId_dom in Hk as [-> | Hk]; [right; left | by left].
      * right. by right.
Qed.

(** C3. After any history [pre] of calls from the initial allocator
    (counter 0), short enough for the 64-bit counter, the next call
    [getId n]: for a path not seen before returns the current counter
    and adds one to it, recording the path; for a path seen at call [i]
    returns the identifier of call [i] and changes nothing; and never
    returns the identifier given earlier to a different path. *)
Theorem getId_injective_stable (pre : list string) (n : string)
    (rs : list Z) (a1 : Alloc) :
  getIds pre alloc0 = (rs, a1) ->
  Z.of_nat (length pre) < max_int ->
  nextId alloc0 = 0 /\
  (n ∉ pre ->
     getId n a1 = (nextId a1, mkAlloc (<[n := nextId a1]> (ids a1)) (nextId a1 + 1))) /\
  (forall i, pre !! i = Some n ->
     exists v, rs !! i = Some v /\ getId n a1 = (v, a1)) /\
  (forall i m v, pre !! i = Some m -> rs !! i = Some v -> m <> n ->
     (getId n a1).1 <> v).
Proof.
  intros Hrun Hlen.
  destruct (getIds_inv pre alloc0 rs a1 Hrun alloc0_ok) as (Hok & _ & Hsize & Hrs & Hdom).
  { simpl. rewrite map_size_empty. lia. }
  simpl in Hsize. rewrite map_size_empty in Hsize.
  split; [done|]. split; [|split].
  - intros Hnew.
    assert (Hnone : ids a1 !! n = None).
    { apply eq_None_not_Some. intros Hs. apply Hdom in Hs as [Hs | Hs]; [|done].
      simpl in Hs. rewrite lookup_empty in Hs. by destruct Hs. }
    rewrite (getId_fresh _ _ Hnone). rewrite int_incr_small; [done|].
    destruct Hok as (-> & _). lia.
  - intros i Hi. destruct (Hrs i n Hi) as (v & Hv & Hl).
    exists v. split; [done | by apply getId_known].
  - intros i m v Hi Hv Hne Heq.
    destruct (Hrs i m Hi) as (v' & Hv' & Hl). assert (v' = v) as -> by congruence.
    assert (Hok' : alloc_ok (getId n a1).2).
    { apply getId_ok; [done | right; lia]. }
    destruct Hok' as (_ & _ & Hinj).
    apply Hne. apply (Hinj m n v).
    + eapply lookup_weaken; [exact Hl | apply getId_mono].
    + rewrite <- Heq. apply getId_lookup.
Qed.

(** Three paths, the first asked for twice. *)
Lemma getId_injective_stable_witness :
  getId "b" (getIds ["a"; "b"; "a"] alloc0).2 = (1, (getIds ["a"; "b"; "a"] alloc0).2).
Proof.
  destruct (getId_injective_stable ["a"; "b"; "a"] "b" [0; 1; 0]
              (getIds ["a"; "b"; "a"] alloc0).2) as (_ & _ & Hst & _).
  - vm_compute. reflexivity.
  - vm_compute. reflexivity.
  - destruct (Hst 1%nat eq_refl) as (v & Hv & Hg).
    simpl in Hv. injection Hv as <-. exact Hg.
Defined.

(** ** Import normalisation *)

Lemma first_occurrences_filter (P : string -> Prop) `{forall x, Decision (P x)}
    (l : list string) :
  first_occurrences (filter P l) = filter P (first_occurrences l).
Proof.
  induction l as [|x l IH]; [done|]. simpl.
  rewrite !filter_cons. destruct (decide (P x)) as [Hx | Hx]; simpl.
  - rewrite IH, !list_filter_filter. f_equal.
    apply list_filter_iff. tauto.
  - rewrite IH, list_filter_filter. apply list_filter_iff.
    intros y. split; [intros Hy; split; [done | congruence] | tauto].
Qed.

Lemma elem_of_first_occurrences (x : string) (l : list string) :
  x ∈ first_occurrences l <-> x ∈ l.
Proof.
  induction l as [|y l IH]; [done|]. simpl.
  rewrite !elem_of_cons, list_elem_of_filter, IH.
  destruct (decide (x = y)); tauto.
Qed.

Lemma NoDup_first_occurrences (l : list string) : NoDup (first_occurrences l).
Proof.
  induction l as [|y l IH]; simpl; [constructor|].
  constructor.
  - rewrite list_elem_of_filter. tauto.
  - by apply NoDup_filter.
Qed.

Lemma first_occurrences_sublist (l : list string) : sublist (first_occurrences l) l.
Proof.
  induction l as [|y l IH]; simpl; [done|].
  constructor. etrans; [apply sublist_filter | done].
Qed.

(** The loop, from any point at which [found] holds the paths kept so
    far. *)
Lemma getImports_loop_spec (self : string) (l : list string) :
  forall (found : gset string) (imports : list string),
    (forall x, x ∈ found <-> x ∈ imports) ->
    getImports_loop self l found imports =
    imports ++ first_occurrences (filter (fun y => y <> self /\ y ∉ imports) l).
Proof.
  induction l as [|imp l IH]; intros found imports Hf; simpl.
  - by rewrite app_nil_r.
  - rewrite filter_cons. destruct (String.eqb_spec imp self) as [-> | Hne].
    + rewrite decide_False by tauto. by apply IH.
    + destruct (decide (imp ∈ found)) as [Hin | Hnin].
      * rewrite decide_False by (rewrite <- Hf; tauto). by apply IH.
      * rewrite decide_True by (rewrite <- Hf; tauto). simpl.
        rewrite (IH ({[imp]} ∪ found) (imports ++ [imp])).
        2:{ intros x. rewrite elem_of_union, elem_of_singleton, elem_of_app,
              list_elem_of_singleton, Hf. tauto. }
        rewrite <- app_assoc. simpl. do 2 f_equal.
        rewrite <- first_occurrences_filter, list_filter_filter.
        f_equal. apply list_filter_iff. intros y.
        rewrite elem_of_app, list_elem_of_singleton. tauto.
Qed.

Lemma getImports_normalised (cfg : Config) (pkg : Package) :
  getImports cfg pkg = normalised_imports (ImportPath pkg) (allImports cfg pkg).
Proof.
  unfold getImports, normalised_imports.
  rewrite (getImports_loop_spec _ _ ∅ []) by (intros x; rewrite elem_of_empty, elem_of_nil; tauto).
  simpl. f_equal. apply list_filter_iff. intros y. rewrite elem_of_nil. tauto.
Qed.

Lemma elem_of_getImports (cfg : Config) (pkg : Package) (x : string) :
  x ∈ getImports cfg pkg <-> x ∈ allImports cfg pkg /\ x <> ImportPath pkg.
Proof.
  rewrite getImports_normalised. unfold normalised_imports.
  rewrite elem_of_first_occurrences, list_elem_of_filter. tauto.
Qed.

Lemma NoDup_getImports (cfg : Config) (pkg : Package) : NoDup (getImports cfg pkg).
Proof. rewrite getImports_normalised. apply NoDup_first_occurrences. Qed.

(** ** Graph renderer *)

Lemma id_in_weaken (a a' : Alloc) (k : string) :
  ids a ⊆ ids a' -> is_Some (ids a !! k) -> id_in a' k = id_in a k.
Proof.
  intros Hsub [v Hv]. unfold id_in.
  by rewrite Hv, (lookup_weaken _ _ _ _ Hv Hsub).
Qed.

Lemma getId_id_in (k : string) (a : Alloc) :
  (getId k a).1 = id_in (getId k a).2 k.
Proof. unfold id_in. by rewrite getId_lookup. Qed.

(** The edge loop emits one edge per drawn import, in order, and asks
    identifiers for exactly those imports. *)
Lemma renderImports_spec (cfg : Config) (store : gmap string Package) (pkgId : Z)
    (imps : list string) :
  forall a out a' out',
    renderImports cfg store pkgId imps a out = (a', out') ->
    ids a ⊆ ids a' /\
    out' = out ++ ((fun imp => EdgeStmt pkgId (id_in a' imp))
                     <$> filter (fun imp => drawn cfg store imp = true) imps) /\
    (forall k, is_Some (ids a' !! k) <->
               is_Some (ids a !! k) \/
               k ∈ filter (fun imp => drawn cfg store imp = true) imps).
Proof.
  induction imps as [|imp imps IH]; intros a out a' out' Hrun; simpl in Hrun.
  - injection Hrun as <- <-. split; [done|]. split; [by rewrite app_nil_r|].
    intros k. rewrite filter_nil, elem_of_nil. tauto.
  - rewrite filter_cons.
    destruct (store !! imp) as [impPkg|] eqn:Hs.
    2:{ rewrite decide_False by (unfold drawn; by rewrite Hs). by apply IH. }
    destruct (isIgnored cfg impPkg) eqn:Hig.
    { rewrite decide_False by (unfold drawn; by rewrite Hs, Hig). by apply IH. }
    rewrite decide_True by (unfold drawn; by rewrite Hs, Hig).
    destruct (getId imp a) as [impId a1] eqn:Hg.
    assert (Ha1 : a1 = (getId imp a).2) by by rewrite Hg.
    assert (Hid : impId = (getId imp a).1) by by rewrite Hg.
    apply IH in Hrun as (Hsub & -> & Hdom).
    pose proof (getId_mono imp a) as Hm. rewrite <- Ha1 in Hm.
    split; [by etrans|]. split.
    + rewrite <- app_assoc. simpl. do 3 f_equal.
      rewrite Hid, getId_id_in, <- Ha1. symmetry. apply id_in_weaken; [done|].
      rewrite Ha1. apply getId_dom. by left.
    + intros k. rewrite Hdom, Ha1, getId_dom, elem_of_cons. tauto.
Qed.

Lemma renderPackage_spec (cfg : Config) (store : gmap string Package)
    (e : string * Package) (a : Alloc) (out : list Stmt) (a' : Alloc) (out' : list Stmt) :
  renderPackage cfg store e a out = (a', out') ->
  ids a ⊆ ids a' /\
  out' = out ++ statements_of cfg store (id_in a') e /\
  (forall k, is_Some (ids a' !! k) <->
             is_Some (ids a !! k) \/ k ∈ named_by cfg store e).
Proof.
  destruct e as [pkgName pkg]. unfold renderPackage, statements_of, named_by, edge_targets.
  simpl. destruct (getId pkgName a) as [pkgId a1] eqn:Hg.
  assert (Ha1 : a1 = (getId pkgName a).2) by by rewrite Hg.
  assert (Hid : pkgId = (getId pkgName a).1) by by rewrite Hg.
  pose proof (getId_mono pkgName a) as Hm. rewrite <- Ha1 in Hm.
  assert (Hk1 : is_Some (ids a1 !! pkgName)).
  { rewrite Ha1. apply getId_dom. by left. }
  assert (Hidk : pkgId = id_in a1 pkgName) by (by rewrite Hid, getId_id_in, Ha1).
  destruct (isIgnored cfg pkg) eqn:Hig.
  { intros [= <- <-]. split; [done|]. split; [by rewrite app_nil_r|].
    intros k. rewrite Ha1, getId_dom, list_elem_of_singleton. tauto. }
  destruct (Goroot pkg && negb (delveGoroot (flags cfg))) eqn:Hleaf.
  { intros [= <- <-]. split; [done|]. split; [by rewrite Hidk|].
    intros k. rewrite Ha1, getId_dom, list_elem_of_singleton. tauto. }
  intros Hrun. apply renderImports_spec in Hrun as (Hsub & -> & Hdom).
  split; [by etrans|]. split.
  - rewrite <- app_assoc. simpl. do 2 f_equal.
    + f_equal. rewrite Hidk. symmetry. by apply id_in_weaken.
    + apply list_fmap_ext. intros _ imp _. f_equal.
      rewrite Hidk. symmetry. by apply id_in_weaken.
  - intros k. rewrite Hdom, Ha1, getId_dom, elem_of_cons. tauto.
Qed.

(** The statements of an entry only depend on the identifiers of the
    paths it names. *)
Lemma statements_of_ext (cfg : Config) (store : gmap string Package)
    (idf idf' : string -> Z) (e : string * Package) :
  (forall k, k ∈ named_by cfg store e -> idf k = idf' k) ->
  statements_of cfg store idf e = statements_of cfg store idf' e.
Proof.
  unfold statements_of, named_by. intros Hext.
  destruct (isIgnored cfg e.2); [done|].
  rewrite (Hext e.1) by left. f_equal.
  apply list_fmap_ext. intros i imp Himp. f_equal.
  apply Hext. right. by eapply list_elem_of_lookup_2.
Qed.

Lemma renderPackages_spec (cfg : Config) (store : gmap string Package)
    (entries : list (string * Package)) :
  forall a out a' out',
    renderPackages cfg store entries a out = (a', out') ->
    ids a ⊆ ids a' /\
    out' = out ++ concat (statements_of cfg store (id_in a') <$> entries) /\
    (forall k, is_Some (ids a' !! k) <->
               is_Some (ids a !! k) \/ exists e, e ∈ entries /\ k ∈ named_by cfg store e).
Proof.
  induction entries as [|e entries IH]; intros a out a' out' Hrun; simpl in Hrun.
  - injection Hrun as <- <-. split; [done|]. split; [by rewrite app_nil_r|].
    intros k. split; [by left | intros [H | (e & He & _)]; [done | by apply elem_of_nil in He]].
  - destruct (renderPackage cfg store e a out) as [a1 out1] eqn:H1.
    apply renderPackage_spec in H1 as (Hsub1 & -> & Hdom1).
    apply IH in Hrun as (Hsub & -> & Hdom).
    split; [by etrans|]. split.
    + simpl. rewrite <- !app_assoc. do 2 f_equal.
      apply statements_of_ext. intros k Hk. symmetry.
      apply id_in_weaken; [done|]. apply Hdom1. by right.
    + intros k. rewrite Hdom, Hdom1. split.
      * intros [[H | H] | (e' & He' & H)]; [by left | right; exists e | right; exists e'];
          (split; [|done]); [left | by right].
      * intros [H | (e' & He' & H)]; [by left; left|].
        apply elem_of_cons in He' as [-> | He']; [left; by right | right; by exists e'].
Qed.

(** ** The resolver and its relation *)

Section Resolver.
Variable provider : Provider.
Variable cfg : Config.
Variable root : string.

Local Abbreviation processPackage' := (processPackage provider cfg).
Local Abbreviation resolves' := (resolves provider cfg root).
Local Abbreviation resolves_imports' := (resolves_imports provider cfg root).

Lemma processImports_sound (rec : string -> Resolver -> option (Resolver * Outcome)) :
  (forall name st st' r, rec name st = Some (st', r) -> resolves' name st st' r) ->
  forall imps st st' r,
    processImports rec imps st = Some (st', r) -> resolves_imports' imps st st' r.
Proof.
  intros Hrec. induction imps as [|imp imps IH]; intros st st' r Hrun; simpl in Hrun.
  - injection Hrun as <- <-. constructor.
  - destruct (pkgs st !! imp) as [pkg|] eqn:Hs.
    { eapply imports_skip; eauto. }
    destruct (rec imp st) as [[st1 [|err]]|] eqn:Hcall; [| |done].
    + eapply imports_next; eauto.
    + injection Hrun as <- <-. eapply imports_fail; eauto.
Qed.

(** Every result of the function is a derivation of the relation. *)
Lemma processPackage_sound (fuel : nat) :
  forall name st st' r,
    processPackage' fuel root name st = Some (st', r) -> resolves' name st st' r.
Proof.
  induction fuel as [|fuel IH]; intros name st st' r Hrun; simpl in Hrun; [done|].
  destruct (ignored_at cfg name) eqn:Hden.
  { injection Hrun as <- <-. by constructor. }
  destruct (provider (buildTags cfg) name root) as [pkg|err] eqn:Hprov.
  2:{ injection Hrun as <- <-. by apply resolves_failed. }
  destruct (isIgnored cfg pkg) eqn:Hig.
  { injection Hrun as <- <-. by eapply resolves_filtered. }
  destruct (Goroot pkg && negb (delveGoroot (flags cfg))) eqn:Hleaf.
  { injection Hrun as <- <-. by apply resolves_leaf. }
  eapply resolves_node; eauto.
  eapply processImports_sound; [apply IH | exact Hrun].
Qed.

(** Every derivation is computed by the function, from some recursion
    depth on. *)
Lemma resolves_complete :
  (forall name st st' r,
     resolves' name st st' r ->
     exists fuel, forall fuel', (fuel <= fuel')%nat ->
       processPackage' fuel' root name st = Some (st', r)) /\
  (forall imps st st' r,
     resolves_imports' imps st st' r ->
     exists fuel, forall fuel', (fuel <= fuel')%nat ->
       processImports (processPackage' fuel' root) imps st = Some (st', r)).
Proof.
  apply resolves_mutind.
  - intros name st Hden. exists 1%nat. intros [|f] Hf; [lia|]. simpl. by rewrite Hden.
  - intros name st err Hden Hprov. exists 1%nat. intros [|f] Hf; [lia|]. simpl.
    by rewrite Hden, Hprov.
  - intros name st pkg Hden Hprov Hig. exists 1%nat. intros [|f] Hf; [lia|]. simpl.
    by rewrite Hden, Hprov, Hig.
  - intros name st pkg Hden Hprov Hig Hleaf. exists 1%nat. intros [|f] Hf; [lia|]. simpl.
    by rewrite Hden, Hprov, Hig, Hleaf.
  - intros name st pkg st' r Hden Hprov Hig Hleaf _ [fuel IH]. exists (S fuel).
    intros [|f] Hf; [lia|]. simpl. rewrite Hden, Hprov, Hig, Hleaf.
    apply IH. lia.
  - intros st. by exists 0%nat.
  - intros imp rest st st' r pkg Hs _ [fuel IH]. exists fuel. intros f Hf. simpl.
    rewrite Hs. by apply IH.
  - intros imp rest st st1 err Hs _ [fuel IH]. exists fuel. intros f Hf. simpl.
    rewrite Hs, IH by done. done.
  - intros imp rest st st1 st' r Hs _ [fuel1 IH1] _ [fuel2 IH2].
    exists (fuel1 `max` fuel2)%nat. intros f Hf. simpl.
    rewrite Hs, IH1 by lia. apply IH2. lia.
Qed.

(** A result does not depend on the depth bound that was enough for
    it. *)
Lemma processPackage_fuel (fuel fuel' : nat) (name : string)
    (st st1 st2 : Resolver) (r1 r2 : Outcome) :
  processPackage' fuel root name st = Some (st1, r1) ->
  processPackage' fuel' root name st = Some (st2, r2) ->
  st1 = st2 /\ r1 = r2.
Proof.
  intros H1 H2.
  apply processPackage_sound, resolves_complete in H1 as [f1 H1].
  apply processPackage_sound, resolves_complete in H2 as [f2 H2].
  specialize (H1 (f1 `max` f2)%nat). specialize (H2 (f1 `max` f2)%nat).
  rewrite H1 in H2 by lia.
assert (Heq : Some (st1, r1) = Some (st2, r2)) by (apply H2; lia).
by injection Heq.
Qed.
End Resolver.

Section ResolverInvariants.
Variable provider : Provider.
Variable cfg : Config.
Variable root : string.

Local Abbreviation resolves' := (resolves provider cfg root).
Local Abbreviation resolves_imports' := (resolves_imports provider cfg root).

Lemma store_ok_insert (m : gmap string Package) (pkg : Package) :
  store_ok cfg m -> isIgnored cfg pkg = false ->
  store_ok cfg (<[ImportPath pkg := pkg]> m).
Proof.
  intros Hok Hig k p. rewrite lookup_insert. case_decide.
  - intros [= <-]. by subst.
  - apply Hok.
Qed.

(** The resolver only stores descriptors that pass the filter, each
    under its own import path. *)
Lemma resolves_store_ok :
  (forall name st st' r,
     resolves' name st st' r -> store_ok cfg (pkgs st) -> store_ok cfg (pkgs st')) /\
  (forall imps st st' r,
     resolves_imports' imps st st' r -> store_ok cfg (pkgs st) -> store_ok cfg (pkgs st')).
Proof.
  apply resolves_mutind; simpl; auto using store_ok_insert.
Qed.

(** The store never loses a key. *)
Lemma resolves_dom_mono :
  (forall name st st' r,
     resolves' name st st' r ->
     forall k, is_Some (pkgs st !! k) -> is_Some (pkgs st' !! k)) /\
  (forall imps st st' r,
     resolves_imports' imps st st' r ->
     forall k, is_Some (pkgs st !! k) -> is_Some (pkgs st' !! k)).
Proof.
  apply resolves_mutind; simpl; auto.
  - intros name st pkg _ _ _ _ k Hk. rewrite lookup_insert_is_Some.
    destruct (decide (ImportPath pkg = k)); auto.
  - intros name st pkg st' r _ _ _ _ _ IH k Hk. apply IH.
    rewrite lookup_insert_is_Some. destruct (decide (ImportPath pkg = k)); auto.
Qed.

End ResolverInvariants.

(** ** The program *)

Lemma processImports_mono (rec rec' : string -> Resolver -> option (Resolver * Outcome)) :
  (forall name st x, rec name st = Some x -> rec' name st = Some x) ->
  forall imps st x,
    processImports rec imps st = Some x -> processImports rec' imps st = Some x.
Proof.
  intros Hrec. induction imps as [|imp imps IH]; intros st x Hrun; simpl in *; [done|].
  destruct (pkgs st !! imp); [by apply IH|].
  destruct (rec imp st) as [[st1 r]|] eqn:Hcall; [|done].
  rewrite (Hrec _ _ _ Hcall). destruct r; [by apply IH | done].
Qed.

(** A deeper bound on the recursion does not change a result. *)
Lemma processPackage_mono (provider : Provider) (cfg : Config) (root : string)
    (fuel : nat) :
  forall fuel' name st x,
    (fuel <= fuel')%nat ->
    processPackage provider cfg fuel root name st = Some x ->
    processPackage provider cfg fuel' root name st = Some x.
Proof.
  induction fuel as [|fuel IH]; intros fuel' name st x Hle Hrun; simpl in Hrun; [done|].
  destruct fuel' as [|fuel']; [lia|]. simpl.
  destruct (ignored_at cfg name); [done|].
  destruct (provider (buildTags cfg) name root) as [pkg|err]; [|done].
  destruct (isIgnored cfg pkg); [done|].
  destruct (Goroot pkg && negb (delveGoroot (flags cfg))); [done|].
  eapply processImports_mono; [|exact Hrun].
  intros n s y. apply IH. lia.
Qed.

Lemma main_mono (provider : Provider) (range : Range) (fl : Flags)
    (args : list string) (getwd : string + string) (fuel fuel' : nat) (run : Run) :
  (fuel <= fuel')%nat ->
  main provider range fl args getwd fuel = Some run ->
  main provider range fl args getwd fuel' = Some run.
Proof.
  intros Hle. unfold main. destruct args as [|root [|? ?]]; try done.
  destruct getwd as [cwd|err]; [|done].
  destruct (processPackage provider (configure fl) fuel cwd root resolver0)
    as [[st r]|] eqn:Hrun; [|done].
  by rewrite (processPackage_mono _ _ _ _ _ _ _ _ Hle Hrun).
Qed.

(** The ways a run can end. *)
Lemma main_inv (provider : Provider) (range : Range) (fl : Flags)
    (args : list string) (getwd : string + string) (fuel : nat) (run : Run) :
  main provider range fl args getwd fuel = Some run ->
  (exists msg, run = fatal resolver0 msg) \/
  (exists root cwd st err,
     args = [root] /\ getwd = inl cwd /\
     resolves provider (configure fl) cwd root resolver0 st (Failed err) /\
     run = fatal st err) \/
  (exists root cwd st,
     args = [root] /\ getwd = inl cwd /\
     resolves provider (configure fl) cwd root resolver0 st Done /\
     run = render (configure fl) range st).
Proof.
  unfold main. destruct args as [|root [|? ?]]; [intros [= <-]; left; eauto | | intros [= <-]; left; eauto].
  destruct getwd as [cwd|err]; [|intros [= <-]; left; eauto].
  destruct (processPackage provider (configure fl) fuel cwd root resolver0)
    as [[st [|err]]|] eqn:Hrun; [| |done]; intros [= <-]; right;
    apply processPackage_sound in Hrun.
  - right. by exists root, cwd, st.
  - left. by exists root, cwd, st, err.
Qed.

Lemma elem_of_range (range : Range) (m : gmap string Package) (k : string) (p : Package) :
  range_ok range -> (k, p) ∈ range m <-> m !! k = Some p.
Proof. intros Hr. by rewrite (Hr m), elem_of_map_to_list. Qed.

Lemma NoDup_range_keys (range : Range) (m : gmap string Package) :
  range_ok range -> NoDup (range m).*1.
Proof. intros Hr. rewrite (Hr m). apply NoDup_fst_map_to_list. Qed.

(** The output of the renderer: the header, the statements of every
    entry under the final identifier assignment, the closing line. *)
Lemma render_spec (cfg : Config) (range : Range) (st : Resolver) :
  store (render cfg range st) = pkgs st /\
  provider_calls (render cfg range st) = lookups st /\
  stderr (render cfg range st) = [] /\
  exit_code (render cfg range st) = 0 /\
  stdout (render cfg range st) =
    header cfg
    ++ concat (statements_of cfg (pkgs st) (id_in (alloc (render cfg range st)))
                 <$> range (pkgs st))
    ++ [Footer] /\
  (forall k, is_Some (ids (alloc (render cfg range st)) !! k) <->
             exists e, e ∈ range (pkgs st) /\ k ∈ named_by cfg (pkgs st) e).
Proof.
  unfold render.
  destruct (renderPackages cfg (pkgs st) (range (pkgs st)) alloc0 (header cfg))
    as [a out] eqn:Hr.
  apply renderPackages_spec in Hr as (_ & -> & Hdom). simpl.
  repeat split; try done.
  - by rewrite <- app_assoc.
  - intros Hk. apply Hdom in Hk as [Hk | Hk]; [|done].
    simpl in Hk. rewrite lookup_empty in Hk. by destruct Hk.
  - intros Hk. apply Hdom. by right.
Qed.

Lemma elem_of_statements (cfg : Config) (store : gmap string Package)
    (idf : string -> Z) (entries : list (string * Package)) (s : Stmt) :
  s ∈ concat (statements_of cfg store idf <$> entries) <->
  exists e, e ∈ entries /\ s ∈ statements_of cfg store idf e.
Proof.
  induction entries as [|e0 entries IH]; simpl.
  - rewrite elem_of_nil. split; [done | intros (e & He & _); by apply elem_of_nil in He].
  - rewrite elem_of_app, IH. split.
    + intros [Hs | (e & He & Hs)]; [exists e0 | exists e]; split; try done; [left | by right].
    + intros (e & He & Hs). apply elem_of_cons in He as [-> | He]; [by left | right; eauto].
Qed.

Lemma node_in_statements (cfg : Config) (store : gmap string Package)
    (idf : string -> Z) (e : string * Package) (i : Z) (l c : string) :
  NodeStmt i l c ∈ statements_of cfg store idf e <->
  isIgnored cfg e.2 = false /\ i = idf e.1 /\ l = e.1 /\ c = color_of e.2.
Proof.
  unfold statements_of. destruct (isIgnored cfg e.2).
  - rewrite elem_of_nil. split; [done | by intros [? _]].
  - rewrite elem_of_cons, list_elem_of_fmap. split.
    + intros [[= -> -> ->] | (imp & Himp & _)]; done.
    + intros (_ & -> & -> & ->). by left.
Qed.

Lemma edge_in_statements (cfg : Config) (store : gmap string Package)
    (idf : string -> Z) (e : string * Package) (i j : Z) :
  EdgeStmt i j ∈ statements_of cfg store idf e <->
  isIgnored cfg e.2 = false /\ i = idf e.1 /\
  exists imp, imp ∈ edge_targets cfg store e.2 /\ j = idf imp.
Proof.
  unfold statements_of. destruct (isIgnored cfg e.2).
  - rewrite elem_of_nil. split; [done | by intros [? _]].
  - rewrite elem_of_cons, list_elem_of_fmap. split.
    + intros [? | (imp & [= -> ->] & Himp)]; [done|]. eauto.
    + intros (_ & -> & imp & Himp & ->). right. eauto.
Qed.

Lemma elem_of_edge_targets (cfg : Config) (store : gmap string Package)
    (pkg : Package) (imp : string) :
  imp ∈ edge_targets cfg store pkg <->
  Goroot pkg && negb (delveGoroot (flags cfg)) = false /\
  imp ∈ getImports cfg pkg /\
  exists q, store !! imp = Some q /\ isIgnored cfg q = false.
Proof.
  unfold edge_targets. destruct (Goroot pkg && negb (delveGoroot (flags cfg))).
  - rewrite elem_of_nil. split; [done | by intros [? _]].
  - rewrite list_elem_of_filter. unfold drawn.
    destruct (store !! imp) as [q|]; split.
    + intros [Hq Hi]. apply negb_true_iff in Hq. eauto.
    + intros (_ & Hi & q' & [= <-] & Hq). by rewrite Hq.
    + by intros [? _].
    + by intros (_ & _ & q & ? & _).
Qed.

Lemma no_edge_in_header (cfg : Config) (i j : Z) : EdgeStmt i j ∉ header cfg.
Proof.
  unfold header. intros H.
  destruct (horizontal (flags cfg));
    repeat (apply elem_of_cons in H as [H | H]; [discriminate|]);
    by apply elem_of_nil in H.
Qed.

Lemma no_node_in_header (cfg : Config) (i : Z) (l c : string) :
  NodeStmt i l c ∉ header cfg.
Proof.
  unfold header. intros H.
  destruct (horizontal (flags cfg));
    repeat (apply elem_of_cons in H as [H | H]; [discriminate|]);
    by apply elem_of_nil in H.
Qed.

Lemma range_ok_map_to_list : range_ok map_to_list.
Proof. by intros m. Qed.



(** C9. The resolver keeps the invariant that every stored descriptor
    passes the filter (and sits under its own import path); so in a
    run, every stored descriptor passes the filter, the renderer writes
    a node statement for every entry of the store, and for every stored
    import of a package whose edges are rendered it writes the edge. *)
Theorem stored_descriptors_pass_filter (provider : Provider) (range : Range)
    (fl : Flags) (args : list string) (getwd : string + string) (fuel : nat)
    (run : Run) :
  main provider range fl args getwd fuel = Some run ->
  range_ok range ->
  (forall fuel' root name st st' r,
     store_ok (configure fl) (pkgs st) ->
     processPackage provider (configure fl) fuel' root name st = Some (st', r) ->
     store_ok (configure fl) (pkgs st')) /\
  (forall k p, store run !! k = Some p ->
     isIgnored (configure fl) p = false /\ ImportPath p = k) /\
  (exit_code run = 0 ->
   (forall k p, store run !! k = Some p ->
      NodeStmt (id_in (alloc run) k) k (color_of p) ∈ stdout run) /\
   (forall k p imp q,
      store run !! k = Some p ->
      Goroot p && negb (delveGoroot fl) = false ->
      imp ∈ getImports (configure fl) p ->
      store run !! imp = Some q ->
      EdgeStmt (id_in (alloc run) k) (id_in (alloc run) imp) ∈ stdout run)).
Proof.
  intros Hmain Hrange.
  assert (Hpres : forall fuel' root name st st' r,
     store_ok (configure fl) (pkgs st) ->
     processPackage provider (configure fl) fuel' root name st = Some (st', r) ->
     store_ok (configure fl) (pkgs st')).
  { intros fuel' root name st st' r Hok Hrun.
    apply processPackage_sound in Hrun.
    by apply (proj1 (resolves_store_ok provider (configure fl) root)) in Hrun. }
  split; [exact Hpres|].
  assert (Hempty : store_ok (configure fl) (pkgs resolver0)).
  { intros k p. simpl. by rewrite lookup_empty. }
  apply main_inv in Hmain as [(msg & ->) | [(root & cwd & st & err & -> & -> & Hres & ->)
                                          | (root & cwd & st & -> & -> & Hres & ->)]].
  - split; [|done]. intros k p. simpl. by rewrite lookup_empty.
  - apply (proj1 (resolves_store_ok provider (configure fl) cwd)) in Hres; [|done].
    split; [|done]. intros k p Hk. destruct (Hres k p Hk). done.
  - apply (proj1 (resolves_store_ok provider (configure fl) cwd)) in Hres; [|done].
    destruct (render_spec (configure fl) range st) as (Hst & _ & _ & _ & Hout & _).
    rewrite Hst, Hout.
    split; [intros k p Hk; destruct (Hres k p Hk); done|].
    intros _. split.
    + intros k p Hk. apply elem_of_app. right. apply elem_of_app. left.
      apply elem_of_statements. exists (k, p). split; [by apply elem_of_range|].
      apply node_in_statements. simpl. by destruct (Hres k p Hk).
    + intros k p imp q Hk Hexp Himp Hq. apply elem_of_app. right. apply elem_of_app. left.
      apply elem_of_statements. exists (k, p). split; [by apply elem_of_range|].
      apply edge_in_statements. simpl. destruct (Hres k p Hk) as [_ Hig].
      repeat split; try done. exists imp. split; [|done].
      apply elem_of_edge_targets. repeat split; try done.
      exists q. by destruct (Hres imp q Hq).
Qed.

(** The three-package workspace, from [app]. *)
Lemma stored_descriptors_pass_filter_witness :
  exists run,
    main sample_provider map_to_list defaultFlags ["app"] (inl "/src") 3 = Some run /\
    forall k p, store run !! k = Some p ->
      isIgnored (configure defaultFlags) p = false /\ ImportPath p = k.
Proof.
  eexists. split; [vm_compute; reflexivity|].
  exact (proj1 (proj2 (stored_descriptors_pass_filter sample_provider map_to_list
           defaultFlags ["app"] (inl "/src"%string) 3 _ eq_refl range_ok_map_to_list))).
Defined.

(** C10. Every edge statement of the output has a node statement for
    its source and one for its target in the same output. *)
Theorem edges_between_nodes (provider : Provider) (range : Range)
    (fl : Flags) (args : list string) (getwd : string + string) (fuel : nat)
    (run : Run) (i j : Z) :
  main provider range fl args getwd fuel = Some run ->
  range_ok range ->
  EdgeStmt i j ∈ stdout run ->
  (exists l c, NodeStmt i l c ∈ stdout run) /\
  (exists l c, NodeStmt j l c ∈ stdout run).
Proof.
  intros Hmain Hrange Hedge.
  apply main_inv in Hmain as [(msg & ->) | [(root & cwd & st & err & -> & -> & Hres & ->)
                                          | (root & cwd & st & -> & -> & Hres & ->)]];
    [by apply elem_of_nil in Hedge.. |].
  destruct (render_spec (configure fl) range st) as (_ & _ & _ & _ & Hout & _).
  rewrite Hout in Hedge |- *. clear Hout. set (idf := id_in _) in *. clearbody idf.
  apply elem_of_app in Hedge as [Hedge | Hedge]; [by apply no_edge_in_header in Hedge|].
  apply elem_of_app in Hedge as [Hedge | Hedge];
    [|by apply list_elem_of_singleton in Hedge].
  apply elem_of_statements in Hedge as ([k p] & He & Hedge).
  apply edge_in_statements in Hedge as (Hig & -> & imp & Himp & ->).
  simpl in Hig, Himp. simpl fst.
  apply elem_of_edge_targets in Himp as (_ & _ & q & Hq & Hqig).
  split.
  - exists k, (color_of p). apply elem_of_app. right. apply elem_of_app. left.
    apply elem_of_statements. exists (k, p). split; [done|].
    by apply node_in_statements.
  - exists imp, (color_of q). apply elem_of_app. right. apply elem_of_app. left.
    apply elem_of_statements. exists (imp, q). split; [by apply elem_of_range|].
    by apply node_in_statements.
Qed.

(** The edge [app -> lib/a] of the three-package workspace. *)
Lemma edges_between_nodes_witness :
  exists run,
    main sample_provider map_to_list defaultFlags ["app"] (inl "/src") 3 = Some run /\
    EdgeStmt 0 1 ∈ stdout run /\
    (exists l c, NodeStmt 0 l c ∈ stdout run) /\
    (exists l c, NodeStmt 1 l c ∈ stdout run).
Proof.
  eexists. split; [vm_compute; reflexivity|].
  assert (He : EdgeStmt 0 1 ∈ [Header; NodeStmt 0 "app" "paleturquoise";
                 EdgeStmt 0 1; EdgeStmt 0 2; NodeStmt 1 "lib/a" "paleturquoise";
                 EdgeStmt 1 2; NodeStmt 2 "lib/b" "paleturquoise"; Footer]).
  { do 2 right. left. }
  split; [exact He|].
  exact (edges_between_nodes sample_provider map_to_list defaultFlags ["app"]
           (inl "/src"%string) 3 _ 0 1 eq_refl range_ok_map_to_list He).
Defined.

(** ** Identifiers in the renderer *)

Lemma within_fresh_size (a : Alloc) (store : gmap string Package) (k : string) :
  within a store -> ids a !! k = None -> is_Some (store !! k) ->
  (size (ids a) < size store)%nat.
Proof.
  intros Hw Hn Hs. rewrite <- (size_dom (D := gset string) (ids a)),
    <- (size_dom (D := gset string) store).
  apply subset_size. split.
  - intros x. rewrite !elem_of_dom. apply Hw.
  - intros Hsub. specialize (Hsub k). rewrite !elem_of_dom in Hsub.
    apply Hsub in Hs. rewrite Hn in Hs. by destruct Hs.
Qed.

Lemma getId_within (k : string) (a : Alloc) (store : gmap string Package) :
  alloc_ok a -> within a store -> is_Some (store !! k) ->
  Z.of_nat (size store) <= max_int ->
  alloc_ok (getId k a).2 /\ within (getId k a).2 store.
Proof.
  intros Hok Hw Hk Hb. split.
  - apply getId_ok; [done|]. destruct (ids a !! k) eqn:Hn; [by left | right].
    pose proof (within_fresh_size a store k Hw Hn Hk). lia.
  - intros k' Hk'. apply getId_dom in Hk' as [-> | Hk']; [done | by apply Hw].
Qed.

Lemma renderImports_ok (cfg : Config) (store : gmap string Package) (pkgId : Z)
    (imps : list string) :
  Z.of_nat (size store) <= max_int ->
  forall a out a' out',
    renderImports cfg store pkgId imps a out = (a', out') ->
    alloc_ok a -> within a store -> alloc_ok a' /\ within a' store.
Proof.
  intros Hb. induction imps as [|imp imps IH]; intros a out a' out' Hrun Hok Hw;
    simpl in Hrun.
  - by injection Hrun as <- <-.
  - destruct (store !! imp) as [impPkg|] eqn:Hs; [|by eapply IH].
    destruct (isIgnored cfg impPkg); [by eapply IH|].
    destruct (getId imp a) as [impId a1] eqn:Hg.
    destruct (getId_within imp a store Hok Hw) as [Hok1 Hw1]; [by rewrite Hs | done |].
    rewrite Hg in Hok1, Hw1. by eapply IH.
Qed.

Lemma renderPackages_ok (cfg : Config) (store : gmap string Package)
    (entries : list (string * Package)) :
  Z.of_nat (size store) <= max_int ->
  (forall e, e ∈ entries -> is_Some (store !! e.1)) ->
  forall a out a' out',
    renderPackages cfg store entries a out = (a', out') ->
    alloc_ok a -> within a store -> alloc_ok a' /\ within a' store.
Proof.
  intros Hb. induction entries as [|[k p] entries IH]; intros Hkeys a out a' out' Hrun Hok Hw;
    simpl in Hrun.
  - by injection Hrun as <- <-.
  - destruct (getId k a) as [pkgId a1] eqn:Hg.
    destruct (getId_within k a store Hok Hw) as [Hok1 Hw1];
      [apply (Hkeys (k, p)); left | done |].
    rewrite Hg in Hok1, Hw1. simpl in Hok1, Hw1.
    assert (Hrest : forall e, e ∈ entries -> is_Some (store !! e.1)).
    { intros e He. apply Hkeys. by right. }
    destruct (isIgnored cfg p); [by eapply IH|].
    destruct (Goroot p && negb (delveGoroot (flags cfg))); [by eapply IH|].
    destruct (renderImports cfg store pkgId (getImports cfg p) a1
                (out ++ [NodeStmt pkgId k (color_of p)])) as [a2 out2] eqn:Hi.
    destruct (renderImports_ok cfg store pkgId _ Hb _ _ _ _ Hi Hok1 Hw1).
    by eapply IH.
Qed.

(** In a store of fewer than [2^63] packages the renderer never wraps
    the counter: its identifiers are one per path. *)
Lemma render_alloc_ok (cfg : Config) (range : Range) (st : Resolver) :
  range_ok range ->
  Z.of_nat (size (pkgs st)) <= max_int ->
  alloc_ok (alloc (render cfg range st)).
Proof.
  intros Hr Hb. unfold render.
  destruct (renderPackages cfg (pkgs st) (range (pkgs st)) alloc0 (header cfg))
    as [a out] eqn:Hrun. simpl.
  assert (Hkeys : forall e, e ∈ range (pkgs st) -> is_Some (pkgs st !! e.1)).
  { intros [k p] He. apply (elem_of_range _ _ _ _ Hr) in He. simpl. by rewrite He. }
  assert (Hw0 : within alloc0 (pkgs st)).
  { intros k. simpl. rewrite lookup_empty. by intros [? ?]. }
  by destruct (renderPackages_ok cfg (pkgs st) _ Hb Hkeys _ _ _ _ Hrun alloc0_ok Hw0).
Qed.

Lemma id_in_inj (a : Alloc) (k1 k2 : string) :
  alloc_ok a -> is_Some (ids a !! k1) -> is_Some (ids a !! k2) ->
  id_in a k1 = id_in a k2 -> k1 = k2.
Proof.
  intros (_ & _ & Hinj) [v1 H1] [v2 H2]. unfold id_in. rewrite H1, H2. simpl.
  intros <-. by eapply Hinj.
Qed.

(** ** Edges of the output *)

Lemma edges_app (l1 l2 : list Stmt) : edges (l1 ++ l2) = edges l1 ++ edges l2.
Proof. apply omap_app. Qed.

Lemma edges_header (cfg : Config) : edges (header cfg) = [].
Proof. unfold header. by destruct (horizontal (flags cfg)). Qed.

Lemma edges_statements_of (cfg : Config) (store : gmap string Package)
    (idf : string -> Z) (e : string * Package) :
  edges (statements_of cfg store idf e) =
  (fun kv => (idf kv.1, idf kv.2)) <$> edge_pairs cfg store e.
Proof.
  unfold statements_of, edge_pairs. destruct (isIgnored cfg e.2); [done|].
  unfold edges. simpl. induction (edge_targets cfg store e.2) as [|imp l IH]; [done|].
  simpl. f_equal. exact IH.
Qed.

Lemma edges_concat (cfg : Config) (store : gmap string Package)
    (idf : string -> Z) (entries : list (string * Package)) :
  edges (concat (statements_of cfg store idf <$> entries)) =
  (fun kv => (idf kv.1, idf kv.2)) <$> concat (edge_pairs cfg store <$> entries).
Proof.
  induction entries as [|e entries IH]; [done|].
  rewrite !fmap_cons. cbn [concat].
  by rewrite edges_app, fmap_app, IH, edges_statements_of.
Qed.

Lemma elem_of_edge_pairs (cfg : Config) (store : gmap string Package)
    (e : string * Package) (k imp : string) :
  (k, imp) ∈ edge_pairs cfg store e <->
  isIgnored cfg e.2 = false /\ k = e.1 /\ imp ∈ edge_targets cfg store e.2.
Proof.
  unfold edge_pairs. destruct (isIgnored cfg e.2).
  - rewrite elem_of_nil. split; [done | by intros [? _]].
  - rewrite list_elem_of_fmap. split.
    + by intros (x & [= -> ->] & Hx).
    + intros (_ & -> & Hx). eauto.
Qed.

Lemma NoDup_edge_targets (cfg : Config) (store : gmap string Package) (pkg : Package) :
  NoDup (edge_targets cfg store pkg).
Proof.
  unfold edge_targets. destruct (Goroot pkg && negb (delveGoroot (flags cfg)));
    [constructor|]. apply NoDup_filter, NoDup_getImports.
Qed.

Lemma NoDup_edge_pairs (cfg : Config) (store : gmap string Package)
    (entries : list (string * Package)) :
  NoDup entries.*1 -> NoDup (concat (edge_pairs cfg store <$> entries)).
Proof.
  induction entries as [|e entries IH]; simpl; [constructor|].
  intros Hnd. apply NoDup_cons in Hnd as [Hfresh Hnd].
  apply NoDup_app. split; [|split; [|by apply IH]].
  - unfold edge_pairs. destruct (isIgnored cfg e.2); [constructor|].
    apply NoDup_fmap_2; [by intros x y [=] | apply NoDup_edge_targets].
  - intros [k imp] Hin Hin'. apply elem_of_edge_pairs in Hin as (_ & -> & _).
    apply Hfresh. clear -Hin'.
    induction entries as [|e' entries IH]; simpl in Hin'; [by apply elem_of_nil in Hin'|].
    apply elem_of_app in Hin' as [Hin' | Hin'].
    + apply elem_of_edge_pairs in Hin' as (_ & -> & _). left.
    + right. by apply IH.
Qed.

Lemma elem_of_concat_edge_pairs (cfg : Config) (store : gmap string Package)
    (entries : list (string * Package)) (kv : string * string) :
  kv ∈ concat (edge_pairs cfg store <$> entries) <->
  exists e, e ∈ entries /\ kv ∈ edge_pairs cfg store e.
Proof.
  induction entries as [|e0 entries IH]; simpl.
  - rewrite elem_of_nil. split; [done | intros (e & He & _); by apply elem_of_nil in He].
  - rewrite elem_of_app, IH. split.
    + intros [Hs | (e & He & Hs)]; [exists e0 | exists e]; split; try done; [left | by right].
    + intros (e & He & Hs). apply elem_of_cons in He as [-> | He]; [by left | right; eauto].
Qed.

Lemma render_edges (cfg : Config) (range : Range) (st : Resolver) :
  edges (stdout (render cfg range st)) =
  (fun kv => (id_in (alloc (render cfg range st)) kv.1,
              id_in (alloc (render cfg range st)) kv.2))
    <$> concat (edge_pairs cfg (pkgs st) <$> range (pkgs st)).
Proof.
  destruct (render_spec cfg range st) as (_ & _ & _ & _ & -> & _).
  rewrite !edges_app, edges_header, edges_concat. simpl. by rewrite app_nil_r.
Qed.

(** What an edge pair of the rendered store is. *)
Lemma render_edge_pair (cfg : Config) (range : Range) (st : Resolver) (k imp : string) :
  range_ok range ->
  (k, imp) ∈ concat (edge_pairs cfg (pkgs st) <$> range (pkgs st)) ->
  exists p, pkgs st !! k = Some p /\ imp ∈ getImports cfg p /\
            is_Some (ids (alloc (render cfg range st)) !! k) /\
            is_Some (ids (alloc (render cfg range st)) !! imp).
Proof.
  intros Hr Hin.
  apply elem_of_concat_edge_pairs in Hin as ([k' p] & He & Hin).
  apply elem_of_edge_pairs in Hin as (Hig & -> & Himp). simpl in Hig, Himp. simpl.
  destruct (render_spec cfg range st) as (_ & _ & _ & _ & _ & Hdom).
  exists p. split; [by apply (elem_of_range range) in He|].
  split; [by apply elem_of_edge_targets in Himp as (_ & ? & _)|].
  split; apply Hdom; exists (k', p); (split; [done|]); unfold named_by; simpl.
  - left.
  - right. by rewrite Hig.
Qed.

(** C4. [getImports] is the combined import list with the package's own
    path removed and every other path kept at its first occurrence only;
    and in a run the edge statements are pairwise distinct, none joins
    an identifier to itself, and each comes from a stored package and
    one of its normalised imports. The store is taken to hold fewer
    than [2^63] packages, the range of the 64-bit identifiers. *)
Theorem one_edge_per_import_no_self_loop (provider : Provider) (range : Range)
    (fl : Flags) (args : list string) (getwd : string + string) (fuel : nat)
    (run : Run) :
  main provider range fl args getwd fuel = Some run ->
  range_ok range ->
  Z.of_nat (size (store run)) <= max_int ->
  (forall pkg,
     getImports (configure fl) pkg =
       normalised_imports (ImportPath pkg) (allImports (configure fl) pkg) /\
     NoDup (getImports (configure fl) pkg) /\
     (ImportPath pkg ∉ getImports (configure fl) pkg) /\
     (forall x, x ∈ getImports (configure fl) pkg <->
                x ∈ allImports (configure fl) pkg /\ x <> ImportPath pkg)) /\
  NoDup (edges (stdout run)) /\
  (forall i j, (i, j) ∈ edges (stdout run) ->
     i <> j /\
     exists k p imp,
       store run !! k = Some p /\ ImportPath p = k /\
       imp ∈ getImports (configure fl) p /\
       i = id_in (alloc run) k /\ j = id_in (alloc run) imp).
Proof.
  intros Hmain Hrange Hsize. split.
  { intros pkg. split; [apply getImports_normalised|].
    split; [apply NoDup_getImports|]. split; [|apply elem_of_getImports].
    rewrite elem_of_getImports. tauto. }
  apply main_inv in Hmain as [(msg & ->) | [(root & cwd & st & err & -> & -> & Hres & ->)
                                          | (root & cwd & st & -> & -> & Hres & ->)]];
    [simpl; split; [constructor | intros i j Hin; by apply elem_of_nil in Hin].. |].
  assert (Hst : store (render (configure fl) range st) = pkgs st)
    by apply render_spec.
  rewrite Hst in Hsize |- *.
  pose proof (render_alloc_ok (configure fl) range st Hrange Hsize) as Hok.
  apply (proj1 (resolves_store_ok provider (configure fl) cwd)) in Hres.
  2:{ intros k p. simpl. by rewrite lookup_empty. }
  rewrite render_edges. set (a := alloc _) in *. split.
  - apply NoDup_fmap_2_strong.
    + intros [k1 i1] [k2 i2] H1 H2 [= Hk Hi]. simpl in Hk, Hi.
      apply (render_edge_pair _ _ _ _ _ Hrange) in H1 as (p1 & _ & _ & Hd1 & Hd1').
      apply (render_edge_pair _ _ _ _ _ Hrange) in H2 as (p2 & _ & _ & Hd2 & Hd2').
      f_equal; by eapply id_in_inj.
    + apply NoDup_edge_pairs. by apply NoDup_range_keys.
  - intros i j Hin. apply list_elem_of_fmap in Hin as ([k imp] & [= -> ->] & Hin).
    apply (render_edge_pair _ _ _ _ _ Hrange) in Hin as (p & Hp & Himp & Hd & Hd').
    simpl. destruct (Hres k p Hp) as [Hkey _]. split.
    + intros Heq. apply (id_in_inj _ _ _ Hok Hd Hd') in Heq. subst imp.
      apply elem_of_getImports in Himp as [_ Hne]. congruence.
    + by exists k, p, imp.
Qed.

(** [svc] lists [lib/a] three times, [lib/b] twice and itself twice
    once its test imports are included. *)
Lemma one_edge_per_import_no_self_loop_witness :
  exists run,
    main sample_provider map_to_list
      (mkFlags false false EmptyString EmptyString EmptyString EmptyString false true)
      ["svc"] (inl "/src") 3 = Some run /\
    edges (stdout run) = [(0, 1); (0, 2); (1, 2)] /\
    NoDup (edges (stdout run)).
Proof.
  eexists. split; [vm_compute; reflexivity|]. split; [vm_compute; reflexivity|].
  refine (proj1 (proj2 (one_edge_per_import_no_self_loop sample_provider map_to_list
           (mkFlags false false EmptyString EmptyString EmptyString EmptyString false true)
           ["svc"] (inl "/src"%string) 3 _ eq_refl range_ok_map_to_list _))).
  vm_compute. discriminate.
Defined.

(** ** Small runs *)

Lemma range_singleton (range : Range) (k : string) (p : Package) :
  range_ok range -> range (<[k := p]> ∅) = [(k, p)].
Proof.
  intros Hr. apply Permutation_singleton_r.
  by rewrite (Hr _), insert_empty, map_to_list_singleton.
Qed.

(** The resolver on a package that passes the filter and has nothing to
    import: one lookup, one descriptor stored. *)
Lemma processPackage_no_imports (provider : Provider) (cfg : Config) (fuel : nat)
    (root name : string) (st : Resolver) (pkg : Package) :
  ignored_at cfg name = false ->
  provider (buildTags cfg) name root = Found pkg ->
  isIgnored cfg pkg = false ->
  getImports cfg pkg = [] ->
  processPackage provider cfg (S fuel) root name st
  = Some (stored pkg (logged name st), Done).
Proof.
  intros Hden Hprov Hig Himp. simpl. rewrite Hden, Hprov, Hig, Himp.
  by destruct (Goroot pkg && negb (delveGoroot (flags cfg))).
Qed.

Lemma renderPackage_no_imports (cfg : Config) (store : gmap string Package)
    (k : string) (p : Package) (a : Alloc) (out : list Stmt) :
  isIgnored cfg p = false ->
  getImports cfg p = [] ->
  renderPackage cfg store (k, p) a out
  = ((getId k a).2, out ++ [NodeStmt (getId k a).1 k (color_of p)]).
Proof.
  intros Hig Himp. unfold renderPackage. destruct (getId k a) as [pkgId a1].
  rewrite Hig, Himp. by destruct (Goroot p && negb (delveGoroot (flags cfg))).
Qed.

(** C8, as the code has it. A root whose descriptor has no imports, and
    which the filter does not exclude (its name is not in the exact
    denylist and its descriptor passes [isIgnored]), is rendered as
    exactly one node statement, the root's, and no edge statement. *)
Theorem root_without_imports (provider : Provider) (range : Range) (fl : Flags)
    (root cwd : string) (fuel : nat) (pkg : Package) :
  range_ok range ->
  ignored_at (configure fl) root = false ->
  provider (buildTags (configure fl)) root cwd = Found pkg ->
  isIgnored (configure fl) pkg = false ->
  getImports (configure fl) pkg = [] ->
  exists run,
    main provider range fl [root] (inl cwd) (S fuel) = Some run /\
    exit_code run = 0 /\
    stdout run = header (configure fl)
                 ++ [NodeStmt 0 (ImportPath pkg) (color_of pkg); Footer] /\
    node_labels (stdout run) = [ImportPath pkg] /\
    edges (stdout run) = [].
Proof.
  intros Hr Hden Hprov Hig Himp. unfold main.
  rewrite (processPackage_no_imports _ _ _ _ _ _ pkg) by done.
  eexists. split; [reflexivity|].
  unfold render. simpl pkgs. rewrite (range_singleton _ _ _ Hr).
  cbn [renderPackages]. rewrite renderPackage_no_imports by done.
  rewrite (getId_fresh _ alloc0) by apply lookup_empty. simpl.
  split; [done|]. split; [by rewrite <- app_assoc|].
  unfold header. by destruct (horizontal fl).
Qed.

(** [lib/b] imports nothing. *)
Lemma root_without_imports_witness :
  exists run,
    main sample_provider map_to_list defaultFlags ["lib/b"] (inl "/src") 1 = Some run /\
    exit_code run = 0 /\
    stdout run = [Header; NodeStmt 0 "lib/b" "paleturquoise"; Footer] /\
    node_labels (stdout run) = ["lib/b"] /\
    edges (stdout run) = [].
Proof.
  exact (root_without_imports sample_provider map_to_list defaultFlags "lib/b" "/src" 0
           (pkg_of "lib/b" false []) range_ok_map_to_list eq_refl eq_refl eq_refl eq_refl).
Defined.

(** C8 as stated fails when the filter excludes the root: with [-s], the
    standard-library root [errors], whose descriptor has no imports, is
    rendered as no node statement at all. *)
Lemma root_without_imports_counterexample :
  exists run,
    main sample_provider map_to_list
      (mkFlags true false EmptyString EmptyString EmptyString EmptyString false false)
      ["errors"] (inl "/src") 1 = Some run /\
    sample_provider [] "errors" "/src" = Found (pkg_of "errors" true []) /\
    stdout run = [Header; Footer] /\
    length (node_labels (stdout run)) <> 1%nat.
Proof.
  eexists. split; [vm_compute; reflexivity|].
  split; [reflexivity|]. split; [reflexivity|]. simpl. discriminate.
Qed.

(** ** Pruning at resolution time *)

Lemma range_cases (range : Range) (m : gmap string Package) :
  range_ok range -> range m ∈ permutations (map_to_list m).
Proof. intros Hr. apply permutations_Permutation. symmetry. apply Hr. Qed.

(** Replaces the enumeration [range m] of a concrete store by each of
    its possible values in turn. *)
Ltac enumerate_range Hr :=
  match goal with
  | |- context [?range ?m] =>
      let Hp := fresh "Hp" in
      let ps := fresh "ps" in
      let es := fresh "es" in
      pose proof (range_cases range m Hr) as Hp;
      set (ps := permutations (map_to_list m)) in Hp;
      vm_compute in ps; subst ps;
      generalize dependent (range m); intros es Hp;
      repeat (apply elem_of_cons in Hp as [-> | Hp]);
      [.. | by apply elem_of_nil in Hp]
  end.

Lemma processPackage_denied (provider : Provider) (cfg : Config) (fuel : nat)
    (root name : string) (st : Resolver) :
  ignored_at cfg name = true ->
  processPackage provider cfg (S fuel) root name st = Some (st, Done).
Proof. intros Hden. simpl. by rewrite Hden. Qed.

Lemma processPackage_filtered (provider : Provider) (cfg : Config) (fuel : nat)
    (root name : string) (st : Resolver) (pkg : Package) :
  ignored_at cfg name = false ->
  provider (buildTags cfg) name root = Found pkg ->
  isIgnored cfg pkg = true ->
  processPackage provider cfg (S fuel) root name st = Some (logged name st, Done).
Proof. intros Hden Hprov Hig. simpl. by rewrite Hden, Hprov, Hig. Qed.

(** C6. A call for a path whose descriptor the provider returns but the
    filter rejects returns [nil] with the store as it was and that one
    lookup made, so nothing below it is explored (a path in the exact
    denylist returns before any lookup). With [-i lib/b] on the
    workspace [app -> lib/a, lib/b] and [lib/a -> lib/b], whatever the
    enumeration order: [lib/b] is not stored and has no node, the nodes
    are [app] and [lib/a], and the only edge is [app -> lib/a]; without
    the flag the nodes are [app], [lib/a], [lib/b] and the edges
    [app -> lib/a], [app -> lib/b], [lib/a -> lib/b]. *)
Theorem filtered_descriptor_prunes :
  (forall provider cfg fuel root name st pkg,
     ignored_at cfg name = false ->
     provider (buildTags cfg) name root = Found pkg ->
     isIgnored cfg pkg = true ->
     processPackage provider cfg (S fuel) root name st = Some (logged name st, Done) /\
     pkgs (logged name st) = pkgs st /\
     lookups (logged name st) = lookups st ++ [name]) /\
  (forall provider cfg fuel root name st,
     ignored_at cfg name = true ->
     processPackage provider cfg (S fuel) root name st = Some (st, Done)) /\
  (forall range, range_ok range ->
     exists run,
       main sample_provider range exclude_lib_b ["app"] (inl "/src") 3 = Some run /\
       exit_code run = 0 /\
       store run !! "lib/b" = None /\
       ("lib/b" ∉ node_labels (stdout run)) /\
       node_labels (stdout run) ≡ₚ ["app"; "lib/a"] /\
       labelled_edges (stdout run) = [(Some "app", Some "lib/a")]) /\
  (forall range, range_ok range ->
     exists run,
       main sample_provider range defaultFlags ["app"] (inl "/src") 3 = Some run /\
       exit_code run = 0 /\
       node_labels (stdout run) ≡ₚ ["app"; "lib/a"; "lib/b"] /\
       labelled_edges (stdout run)
         ≡ₚ [(Some "app", Some "lib/a"); (Some "app", Some "lib/b");
             (Some "lib/a", Some "lib/b")]).
Proof.
  split; [|split; [|split]].
  - intros provider cfg fuel root name st pkg Hden Hprov Hig.
    split; [by eapply processPackage_filtered | done].
  - intros. by apply processPackage_denied.
  - intros range Hr. unfold main. cbv beta iota zeta.
    assert (Hrun : processPackage sample_provider (configure exclude_lib_b) 3
                     "/src" "app" resolver0
                   = Some (mkResolver (<["lib/a" := pkg_of "lib/a" false ["lib/b"]]>
                                         (<["app" := pkg_of "app" false ["lib/a"; "lib/b"]]> ∅))
                                      ["app"; "lib/a"], Done))
      by (vm_compute; reflexivity).
    rewrite Hrun. unfold render. cbn [pkgs lookups].
    enumerate_range Hr.
    all: eexists; split; [vm_compute; reflexivity|];
      split; [reflexivity|]; split; [vm_compute; reflexivity|];
      split; [vm_compute; intros H; repeat (apply elem_of_cons in H as [H | H];
                                             [discriminate|]); by apply elem_of_nil in H|];
      split; [vm_compute; first [reflexivity | apply perm_swap] | vm_compute; reflexivity].
  - intros range Hr. unfold main. cbv beta iota zeta.
    assert (Hrun : processPackage sample_provider (configure defaultFlags) 3
                     "/src" "app" resolver0
                   = Some (mkResolver (<["lib/b" := pkg_of "lib/b" false []]>
                                         (<["lib/a" := pkg_of "lib/a" false ["lib/b"]]>
                                            (<["app" := pkg_of "app" false ["lib/a"; "lib/b"]]> ∅)))
                                      ["app"; "lib/a"; "lib/b"], Done))
      by (vm_compute; reflexivity).
    rewrite Hrun. unfold render. cbn [pkgs lookups].
    enumerate_range Hr.
    all: eexists; split; [vm_compute; reflexivity|];
      split; [reflexivity|];
      split; vm_compute; apply permutations_Permutation; vm_compute;
        repeat first [by left | right].
Qed.

(** With [-o lib/], [app] itself fails the filter once loaded. *)
Lemma filtered_descriptor_prunes_witness :
  processPackage sample_provider
    (configure (mkFlags false false EmptyString EmptyString "lib/" EmptyString false false))
    1 "/src" "app" resolver0
  = Some (logged "app" resolver0, Done).
Proof.
  exact (proj1 (proj1 filtered_descriptor_prunes sample_provider
           (configure (mkFlags false false EmptyString EmptyString "lib/" EmptyString false false))
           0%nat "/src"%string "app"%string resolver0 (pkg_of "app" false ["lib/a"; "lib/b"])
           eq_refl eq_refl eq_refl)).
Defined.

Lemma sample_provider_canonical (cfg : Config) (root : string) :
  provider_canonical sample_provider cfg root.
Proof.
  intros name pkg. unfold sample_provider.
  destruct (List.find _ sample_packages) as [p|] eqn:Hf; [|done].
  intros [= ->]. apply List.find_some in Hf as [_ Heq]. by apply String.eqb_eq in Heq.
Qed.

(** ** Standard-library packages as leaves *)




Lemma node_labels_app (l1 l2 : list Stmt) :
  node_labels (l1 ++ l2) = node_labels l1 ++ node_labels l2.
Proof. apply omap_app. Qed.

Lemma node_labels_header (cfg : Config) : node_labels (header cfg) = [].
Proof. unfold header. by destruct (horizontal (flags cfg)). Qed.

Lemma node_labels_statements_of (cfg : Config) (store : gmap string Package)
    (idf : string -> Z) (e : string * Package) :
  node_labels (statements_of cfg store idf e) =
  if isIgnored cfg e.2 then [] else [e.1].
Proof.
  unfold statements_of. destruct (isIgnored cfg e.2); [done|].
  unfold node_labels. simpl. f_equal.
  induction (edge_targets cfg store e.2) as [|imp l IH]; [done | exact IH].
Qed.

(** When no entry is excluded, the node statements are those of the
    keys, in the order of the enumeration. *)
Lemma node_labels_concat (cfg : Config) (store : gmap string Package)
    (idf : string -> Z) (entries : list (string * Package)) :
  (forall e, e ∈ entries -> isIgnored cfg e.2 = false) ->
  node_labels (concat (statements_of cfg store idf <$> entries)) = entries.*1.
Proof.
  induction entries as [|e entries IH]; intros Hall; [done|].
  rewrite !fmap_cons. cbn [concat].
  rewrite node_labels_app, node_labels_statements_of, (Hall e) by left.
  rewrite IH; [done|]. intros e' He'. apply Hall. by right.
Qed.

Lemma filter_all {A} (P : A -> Prop) `{forall x, Decision (P x)} (l : list A) :
  (forall x, x ∈ l -> P x) -> filter P l = l.
Proof.
  induction l as [|x l IH]; intros Hall; [done|].
  rewrite filter_cons, decide_True by (apply Hall; left).
  f_equal. apply IH. intros y Hy. apply Hall. by right.
Qed.




(** ** Memoisation *)

Section Lookups.
Variable provider : Provider.
Variable cfg : Config.
Variable root : string.
Hypothesis Hcanon : provider_canonical provider cfg root.

Local Abbreviation resolves' := (resolves provider cfg root).
Local Abbreviation resolves_imports' := (resolves_imports provider cfg root).
Local Abbreviation accepted' := (accepted provider cfg root).
Local Abbreviation lookups_ok' := (lookups_ok provider cfg root).

Lemma lookups_ok_rejected (name : string) (st : Resolver) :
  accepted' name = None -> lookups_ok' st -> lookups_ok' (logged name st).
Proof.
  intros Hrej (Hnd & Hstored & Hlooked). unfold lookups_ok. simpl.
  assert (Hno : ~ is_Some (accepted' name)) by (rewrite Hrej; by intros [? ?]).
  split; [|split].
  - rewrite filter_app, filter_cons, decide_False, filter_nil, app_nil_r by done. done.
  - intros k Hk Hacc. apply elem_of_app in Hk as [Hk | Hk]; [by apply Hstored|].
    apply list_elem_of_singleton in Hk as ->. done.
  - intros k Hk. destruct (Hlooked k Hk). split; [|done]. apply elem_of_app. by left.
Qed.

Lemma lookups_ok_stored (name : string) (pkg : Package) (st : Resolver) :
  accepted' name = Some pkg -> ImportPath pkg = name ->
  pkgs st !! name = None ->
  lookups_ok' st -> lookups_ok' (stored pkg (logged name st)).
Proof.
  intros Hacc Hpath Hnew (Hnd & Hstored & Hlooked). unfold lookups_ok. simpl.
  rewrite Hpath.
  assert (Hyes : is_Some (accepted' name)) by (by rewrite Hacc).
  assert (Hfresh : name ∉ lookups st).
  { intros Hin. destruct (Hstored name Hin Hyes) as [? ?]. congruence. }
  split; [|split].
  - rewrite filter_app, filter_cons, decide_True, filter_nil by done.
    apply NoDup_app. split; [done|]. split; [|apply NoDup_singleton].
    intros k Hk Hk'. apply list_elem_of_singleton in Hk' as ->.
    by apply list_elem_of_filter in Hk as [_ ?].
  - intros k Hk Hk'. rewrite lookup_insert_is_Some.
    destruct (decide (name = k)); [by left | right]. split; [done|].
    apply elem_of_app in Hk as [Hk | Hk]; [by apply Hstored|].
    by apply list_elem_of_singleton in Hk.
  - intros k Hk. rewrite elem_of_app, list_elem_of_singleton.
    apply lookup_insert_is_Some in Hk as [<- | [_ Hk]]; [by split; [right|]|].
    destruct (Hlooked k Hk). split; [by left | done].
Qed.

Lemma resolves_lookups_ok :
  (forall name st st' r,
     resolves' name st st' r ->
     pkgs st !! name = None -> lookups_ok' st -> lookups_ok' st') /\
  (forall imps st st' r,
     resolves_imports' imps st st' r -> lookups_ok' st -> lookups_ok' st').
Proof.
  apply resolves_mutind; auto.
  - intros name st err Hden Hprov _. apply lookups_ok_rejected.
    unfold accepted. by rewrite Hden, Hprov.
  - intros name st pkg Hden Hprov Hig _. apply lookups_ok_rejected.
    unfold accepted. by rewrite Hden, Hprov, Hig.
  - intros name st pkg Hden Hprov Hig _ Hnew. apply lookups_ok_stored; try done.
    + unfold accepted. by rewrite Hden, Hprov, Hig.
    + by apply Hcanon.
  - intros name st pkg st' r Hden Hprov Hig _ _ IH Hnew Hok. apply IH.
    apply lookups_ok_stored; try done.
    + unfold accepted. by rewrite Hden, Hprov, Hig.
    + by apply Hcanon.
Qed.
End Lookups.

Lemma filter_eq_NoDup (l : list string) (k : string) :
  NoDup l -> k ∈ l -> length (filter (fun x => x = k) l) = 1%nat.
Proof.
  induction l as [|x l IH]; intros Hnd Hin; [by apply elem_of_nil in Hin|].
  apply NoDup_cons in Hnd as [Hx Hnd]. rewrite filter_cons.
  destruct (decide (x = k)) as [-> | Hne].
  - simpl. f_equal.
    destruct (filter (fun x => x = k) l) as [|y ys] eqn:Hf; [done|].
    assert (Hy : y ∈ filter (fun x => x = k) l) by (rewrite Hf; left).
    apply list_elem_of_filter in Hy as [-> ?]. done.
  - apply IH; [done|]. apply elem_of_cons in Hin as [-> | Hin]; done.
Qed.





(** ** Termination *)

Lemma size_list_to_set_le (l : list string) :
  (size (list_to_set l : gset string) <= length l)%nat.
Proof.
  induction l as [|x l IH]; [done|]. cbn [list_to_set length].
  destruct (decide (x ∈ (list_to_set l : gset string))) as [Hin | Hnin].
  - rewrite (subseteq_union_1_L {[x]} (list_to_set l)); [lia|].
    by apply singleton_subseteq_l.
  - rewrite size_union by (by apply disjoint_singleton_l).
    rewrite size_singleton. lia.
Qed.

Section Termination.
Variable provider : Provider.
Variable cfg : Config.
Variable root : string.
Variable universe : list string.
Hypothesis Hclosed : provider_closed provider cfg root universe.

Lemma pending_mono (st st' : Resolver) :
  dom (pkgs st) ⊆ dom (pkgs st') ->
  (size (pending universe st') <= size (pending universe st))%nat.
Proof.
  intros Hsub. apply subseteq_size. unfold pending. intros x.
  rewrite !elem_of_difference. intros [Hx Hd]. split; [done|].
  intros Hd'. by apply Hd, Hsub.
Qed.

Lemma pending_stored (name : string) (pkg : Package) (st : Resolver) :
  name ∈ universe -> pkgs st !! name = None ->
  (size (pending universe (mkResolver (<[name := pkg]> (pkgs st)) (lookups st ++ [name])))
   < size (pending universe st))%nat.
Proof.
  intros Hu Hn. apply subset_size. unfold pending. simpl. rewrite dom_insert_L.
  apply not_elem_of_dom in Hn. split.
  - intros x. rewrite !elem_of_difference, elem_of_union. tauto.
  - intros Hsub. specialize (Hsub name).
    rewrite !elem_of_difference, elem_of_union, elem_of_singleton, elem_of_list_to_set in Hsub.
    tauto.
Qed.

Lemma processImports_total (rec : string -> Resolver -> option (Resolver * Outcome))
    (n : nat) :
  (forall name st,
     name ∈ universe -> pkgs st !! name = None ->
     (size (pending universe st) <= n)%nat ->
     exists st' r, rec name st = Some (st', r) /\ dom (pkgs st) ⊆ dom (pkgs st')) ->
  forall imps st,
    (forall imp, imp ∈ imps -> imp ∈ universe) ->
    (size (pending universe st) <= n)%nat ->
    exists st' r, processImports rec imps st = Some (st', r) /\
                  dom (pkgs st) ⊆ dom (pkgs st').
Proof.
  intros Hrec. induction imps as [|imp imps IH]; intros st Hu Hn; simpl.
  - by exists st, Done.
  - assert (Hrest : forall i, i ∈ imps -> i ∈ universe) by (intros i Hi; apply Hu; by right).
    destruct (pkgs st !! imp) as [pkg|] eqn:Hs; [by apply IH|].
    destruct (Hrec imp st) as (st1 & r1 & -> & Hsub1); [apply Hu; left | done..|].
    destruct r1 as [|err]; [|by exists st1, (Failed err)].
    destruct (IH st1 Hrest) as (st' & r & Hrun & Hsub).
    { etrans; [by apply pending_mono | done]. }
    exists st', r. split; [done | by etrans].
Qed.

(** A call for a path of the universe that is not stored yet returns at
    any depth above the number of pending paths. *)
Lemma processPackage_total (fuel : nat) :
  forall name st,
    name ∈ universe -> pkgs st !! name = None ->
    (size (pending universe st) <= fuel)%nat ->
    exists st' r,
      processPackage provider cfg (S fuel) root name st = Some (st', r) /\
      dom (pkgs st) ⊆ dom (pkgs st').
Proof.
  induction fuel as [|fuel IH]; intros name st Hu Hn Hsize.
  - assert (Hin : name ∈ pending universe st).
    { unfold pending. apply not_elem_of_dom in Hn.
      rewrite elem_of_difference, elem_of_list_to_set. tauto. }
    assert (Hz : size (pending universe st) = 0%nat) by lia.
    apply size_empty_inv in Hz. rewrite (Hz name) in Hin. by apply elem_of_empty in Hin.
  - cbn [processPackage].
    destruct (ignored_at cfg name); [by exists st, Done|].
    destruct (provider (buildTags cfg) name root) as [pkg|err] eqn:Hprov;
      [|by eexists _, _].
    destruct (isIgnored cfg pkg); [by eexists _, _|].
    destruct (Hclosed name pkg Hprov) as [Hpath Himps]. rewrite Hpath.
    pose proof (pending_stored name pkg st Hu Hn) as Hless.
    assert (Hdom : dom (pkgs st) ⊆ dom (<[name := pkg]> (pkgs st))).
    { rewrite dom_insert_L. apply union_subseteq_r. }
    destruct (Goroot pkg && negb (delveGoroot (flags cfg))); [by eexists _, _|].
    destruct (processImports_total (processPackage provider cfg (S fuel) root) fuel IH
                (getImports cfg pkg)
                (mkResolver (<[name := pkg]> (pkgs st)) (lookups st ++ [name])) Himps)
      as (st' & r & Hrun & Hsub); [lia|].
    exists st', r. split; [done|]. simpl in Hsub. by etrans.
Qed.
End Termination.

(** X11. Every run ends: when the provider returns descriptors under
    the requested paths and all imports lie in a finite universe of
    paths that holds the root, the recursion of [processPackage] is no
    deeper than the universe is large, import cycles included: [main]
    returns at every depth bound above that size. *)
Theorem main_terminates (provider : Provider) (range : Range) (fl : Flags)
    (args : list string) (getwd : string + string) (universe : list string)
    (fuel : nat) :
  (forall cwd root, getwd = inl cwd -> args = [root] ->
     provider_closed provider (configure fl) cwd universe /\ root ∈ universe) ->
  (length universe <= fuel)%nat ->
  exists run, main provider range fl args getwd (S fuel) = Some run.
Proof.
  intros Hc Hfuel. unfold main. destruct args as [|root [|? ?]]; [by eexists | | by eexists].
  destruct getwd as [cwd|err]; [|by eexists].
  destruct (Hc cwd root eq_refl eq_refl) as [Hclosed Hroot].
  destruct (processPackage_total provider (configure fl) cwd universe Hclosed fuel
              root resolver0 Hroot) as (st & r & -> & _).
  - apply lookup_empty.
  - etrans; [|exact Hfuel]. unfold pending. simpl. rewrite dom_empty_L, difference_empty_L.
    apply size_list_to_set_le.
  - destruct r; by eexists.
Qed.

(** * Further properties of the code *)

(** ** The flags *)

Lemma split_comma_nonempty (s : string) : split_comma s <> [].
Proof.
  destruct s as [|c s]; simpl; [done|].
  destruct (Ascii.eqb c comma); [done|]. by destruct (split_comma s).
Qed.

Lemma join_comma_cons (f : string) (fs : list string) :
  fs <> [] -> join_comma (f :: fs) = f +:+ String comma (join_comma fs).
Proof. by destruct fs. Qed.

Lemma split_comma_join (s : string) : join_comma (split_comma s) = s.
Proof.
  induction s as [|c s IH]; [done|]. simpl.
  destruct (Ascii.eqb_spec c comma) as [-> | Hne].
  - rewrite join_comma_cons by apply split_comma_nonempty. simpl. by rewrite IH.
  - pose proof (split_comma_nonempty s) as Hn.
    destruct (split_comma s) as [|f [|g fs]]; [done | |].
    + simpl in *. by rewrite IH.
    + change (join_comma (String c f :: g :: fs))
        with (String c (join_comma (f :: g :: fs))). by rewrite IH.
Qed.

Lemma split_comma_fields (s : string) :
  Forall (fun f => has_comma f = false) (split_comma s).
Proof.
  induction s as [|c s IH]; simpl; [by repeat constructor|].
  destruct (Ascii.eqb c comma) eqn:Hc; [by constructor|].
  destruct (split_comma s) as [|f fs]; [by repeat constructor; simpl; rewrite Hc|].
  apply Forall_cons in IH as [Hf Hfs]. constructor; [|done]. simpl. by rewrite Hc, Hf.
Qed.

Lemma split_comma_append (f : string) (rest : string) :
  has_comma f = false ->
  split_comma (f +:+ String comma rest) = f :: split_comma rest.
Proof.
  induction f as [|c f IH]; simpl; intros Hf; [done|].
  apply orb_false_iff in Hf as [Hc Hf]. by rewrite Hc, IH.
Qed.

Lemma split_comma_trailing (s : string) :
  exists fs, fs <> [] /\ split_comma (s +:+ ",") = fs ++ [EmptyString].
Proof.
  induction s as [|c s (fs & Hne & IH)]; simpl; [by exists [EmptyString]|].
  rewrite IH. destruct (Ascii.eqb c comma); [by exists (EmptyString :: fs)|].
  destruct fs as [|f fs]; [done|]. by exists (String c f :: fs).
Qed.

Lemma split_comma_field (f : string) : has_comma f = false -> split_comma f = [f].
Proof.
  induction f as [|c f IH]; simpl; intros Hf; [done|].
  apply orb_false_iff in Hf as [Hc Hf]. by rewrite Hc, IH.
Qed.

Lemma join_split_comma (fields : list string) :
  fields <> [] ->
  Forall (fun f => has_comma f = false) fields ->
  split_comma (join_comma fields) = fields.
Proof.
  induction fields as [|f fs IH]; intros Hne Hall; [done|].
  apply Forall_cons in Hall as [Hf Hfs].
  destruct fs as [|g fs]; [by apply split_comma_field|].
  rewrite join_comma_cons by done. rewrite split_comma_append by done.
  by rewrite IH.
Qed.

Lemma lookup_foldl_insert_true (l : list string) (m : gmap string bool) (k : string) :
  foldl (fun m p => <[p := true]> m) m l !! k = Some true <->
  m !! k = Some true \/ k ∈ l.
Proof.
  revert m. induction l as [|p l IH]; intros m; simpl.
  - rewrite elem_of_nil. tauto.
  - rewrite IH, lookup_insert, elem_of_cons. case_decide; subst.
    + split; [intros _; right; by left | intros _; by left].
    + split; [tauto | intros [? | [? | ?]]; [tauto | congruence | tauto]].
Qed.

Lemma split_flag_fields (s : string) : fields_of s (split_flag s).
Proof.
  split; [by intros ->|]. intros Hs. unfold split_flag.
  destruct s as [|c s]; [done|]. cbn [is_empty_string].
  split; [apply split_comma_nonempty|].
  split; [apply split_comma_fields | apply split_comma_join].
Qed.

Lemma fields_of_unique (flag : string) (l1 l2 : list string) :
  fields_of flag l1 -> fields_of flag l2 -> l1 = l2.
Proof.
  intros [He1 Hn1] [He2 Hn2]. destruct (decide (flag = EmptyString)) as [He | Hn].
  - by rewrite (He1 He), (He2 He).
  - destruct (Hn1 Hn) as (Hne1 & Hall1 & Hj1), (Hn2 Hn) as (Hne2 & Hall2 & Hj2).
    rewrite <- (join_split_comma l1), <- (join_split_comma l2) by done. congruence.
Qed.

Lemma split_flag_join (fields : list string) :
  fields <> [] ->
  Forall (fun f => has_comma f = false) fields ->
  join_comma fields <> EmptyString ->
  split_flag (join_comma fields) = fields.
Proof.
  intros Hne Hall Hj. unfold split_flag.
  destruct (join_comma fields) as [|c s] eqn:Hjoin; [done|].
  cbn [is_empty_string]. rewrite <- Hjoin. by apply join_split_comma.
Qed.

(** X1. [main] reads the list flags [-p], [-o], [-tags] and [-i] as
    [strings.Split] on commas guarded by [!= ""]. The prefix denylist,
    the allowlist and the build tags are the fields of their flags, and
    the exact-match denylist holds ["C"] and the fields of [-i]: the
    empty flag gives no field at all; a non-empty flag gives at least
    one field, no field holds a comma, and the fields joined by commas
    are the flag again. These conditions leave one list of fields only.
    And a flag that is the joining of a non-empty list of comma-free
    fields, and is not empty, is read as that list. *)
Theorem flag_fields_round_trip :
  (forall fl,
     fields_of (ignorePrefixes fl) (ignoredPrefixes (configure fl)) /\
     fields_of (onlyPrefix fl) (onlyPrefixes (configure fl)) /\
     fields_of (tagList fl) (buildTags (configure fl)) /\
     exists fields,
       fields_of (ignorePackages fl) fields /\
       forall p, in_denylist (configure fl) p <-> p = "C"%string \/ p ∈ fields) /\
  (forall flag l1 l2, fields_of flag l1 -> fields_of flag l2 -> l1 = l2) /\
  (forall fl fields,
     fields <> [] ->
     Forall (fun f => has_comma f = false) fields ->
     join_comma fields <> EmptyString ->
     (ignorePrefixes fl = join_comma fields -> ignoredPrefixes (configure fl) = fields) /\
     (onlyPrefix fl = join_comma fields -> onlyPrefixes (configure fl) = fields) /\
     (tagList fl = join_comma fields -> buildTags (configure fl) = fields) /\
     (ignorePackages fl = join_comma fields ->
      forall p, in_denylist (configure fl) p <-> p = "C"%string \/ p ∈ fields)).
Proof.
  assert (Hden : forall fl p,
            in_denylist (configure fl) p <->
            p = "C"%string \/ p ∈ split_flag (ignorePackages fl)).
  { intros fl p. unfold in_denylist, configure. simpl. rewrite lookup_foldl_insert_true.
    unfold ignored0. rewrite lookup_singleton. case_decide; subst.
    - split; [intros _; by left | intros _; by left].
    - split; [intros [? | ?]; [done | by right]
             | intros [? | ?]; [congruence | by right]]. }
  split; [|split].
  - intros fl. cbn [configure ignoredPrefixes onlyPrefixes buildTags].
    split; [apply split_flag_fields|]. split; [apply split_flag_fields|].
    split; [apply split_flag_fields|].
    exists (split_flag (ignorePackages fl)). split; [apply split_flag_fields | apply Hden].
  - apply fields_of_unique.
  - intros fl fields Hne Hall Hj. cbn [configure ignoredPrefixes onlyPrefixes buildTags].
    split; [intros ->; by apply split_flag_join|].
    split; [intros ->; by apply split_flag_join|].
    split; [intros ->; by apply split_flag_join|].
    intros Hi p. rewrite Hden, Hi, split_flag_join by done. done.
Qed.

(** The flag [-p vendor/,internal/,]: three prefixes, the last empty. *)
Lemma flag_fields_round_trip_witness :
  ignoredPrefixes
    (configure (mkFlags false false "vendor/,internal/," EmptyString EmptyString
                        EmptyString false false))
  = ["vendor/"; "internal/"; EmptyString].
Proof.
  apply (proj1 (proj2 (proj2 flag_fields_round_trip)
                  (mkFlags false false "vendor/,internal/," EmptyString EmptyString
                           EmptyString false false)
                  ["vendor/"; "internal/"; EmptyString]
                  ltac:(discriminate) ltac:(by repeat constructor) ltac:(discriminate))).
  reflexivity.
Defined.

(** X2. The exact-match denylist [main] builds holds the cgo
    pseudo-package ["C"] and the fields of [-i], and nothing else. *)
Theorem denylist_is_C_and_flag_fields (fl : Flags) (path : string) :
  in_denylist (configure fl) path <->
  path = "C" \/ path ∈ split_flag (ignorePackages fl).
Proof.
  unfold in_denylist, configure. simpl. rewrite lookup_foldl_insert_true.
  unfold ignored0. rewrite lookup_singleton. case_decide; subst.
  - split; [intros _; by left | intros _; by left].
  - split; [intros [? | ?]; [done | by right] | intros [? | ?]; [congruence | by right]].
Qed.

(** X3. An empty field among the prefixes matches every path: in the
    prefix denylist ([-p] with a leading, doubled or trailing comma) it
    makes [isIgnored] hold of every package; in the allowlist ([-o]) it
    lets every path through, so that the allowlist excludes nothing. A
    flag that ends in a comma has such a field. *)
Theorem empty_prefix_matches_everything :
  (forall s, EmptyString ∈ split_comma (s +:+ ",")) /\
  (forall cfg pkg,
     EmptyString ∈ ignoredPrefixes cfg -> isIgnored cfg pkg = true) /\
  (forall cfg pkg,
     EmptyString ∈ onlyPrefixes cfg ->
     isIgnored cfg pkg
     = ignored_at cfg (ImportPath pkg)
       || (Goroot pkg && ignoreStdlib (flags cfg))
       || hasPrefixes (ImportPath pkg) (ignoredPrefixes cfg)).
Proof.
  assert (Hall : forall s l, EmptyString ∈ l -> hasPrefixes s l = true).
  { intros s l Hin. apply hasPrefixes_spec. exists EmptyString. split; [done|]. by exists s. }
  split; [|split].
  - intros s. destruct (split_comma_trailing s) as (fs & _ & ->).
    apply elem_of_app. right. left.
  - intros cfg pkg Hin. unfold isIgnored. rewrite (Hall _ (ignoredPrefixes cfg)) by done.
    rewrite orb_true_r. by destruct (_ && _).
  - intros cfg pkg Hin. unfold isIgnored. rewrite (Hall _ (onlyPrefixes cfg)) by done.
    by rewrite andb_false_r.
Qed.

(** [-p vendor/,] excludes [app], which none of the rules names. *)
Lemma empty_prefix_matches_everything_witness :
  isIgnored (configure (mkFlags false false "vendor/," EmptyString EmptyString EmptyString
                                false false))
            (pkg_of "app" false ["lib/a"; "lib/b"]) = true.
Proof.
  apply (proj1 (proj2 empty_prefix_matches_everything)).
  simpl. right. left.
Defined.

(** ** The shape of a run *)

Lemma statements_are_body (cfg : Config) (store : gmap string Package)
    (idf : string -> Z) (entries : list (string * Package)) :
  Forall (fun s => is_node_or_edge s = true)
         (concat (statements_of cfg store idf <$> entries)).
Proof.
  apply Forall_forall. intros s Hs.
  apply elem_of_statements in Hs as (e & _ & Hs). unfold statements_of in Hs.
  destruct (isIgnored cfg e.2); [by apply elem_of_nil in Hs|].
  apply elem_of_cons in Hs as [-> | Hs]; [done|].
  by apply list_elem_of_fmap in Hs as (imp & -> & _).
Qed.

Lemma main_returns_well (provider : Provider) (range : Range) (fl : Flags)
    (args : list string) (getwd : string + string) (fuel : nat) (run : Run) :
  main provider range fl args getwd fuel = Some run ->
  aborted run \/ whole_graph fl run.
Proof.
  intros Hmain.
  apply main_inv in Hmain as [(msg & ->) | [(root & cwd & st & err & -> & -> & Hres & ->)
                                          | (root & cwd & st & -> & -> & Hres & ->)]].
  - left. unfold aborted. simpl. eauto.
  - left. unfold aborted. simpl. eauto.
  - right. destruct (render_spec (configure fl) range st) as (_ & _ & He & Hx & Hout & _).
    split; [done|]. split; [done|].
    eexists. split; [exact Hout|]. apply statements_are_body.
Qed.

(** Under [-t], the call for [v] stores [vendor/v] and meets the import
    [v] of its external test, which is no key of the store: it calls
    itself, at every depth. *)
Lemma vendored_test_recurs (cwd : string) (fuel : nat) :
  forall st,
    pkgs st !! "v"%string = None ->
    processPackage vendoring_provider
      (configure (mkFlags false false EmptyString EmptyString EmptyString EmptyString
                          false true))
      fuel cwd "v" st = None.
Proof.
  set (cfg := configure _).
  set (pv := mkPackage "vendor/v" false [] [] [] ["v"%string]).
  assert (Hden : ignored_at cfg "v" = false) by (vm_compute; reflexivity).
  assert (Hprov : vendoring_provider (buildTags cfg) "v" cwd = Found pv) by reflexivity.
  assert (Hig : isIgnored cfg pv = false) by (vm_compute; reflexivity).
  assert (Himps : getImports cfg pv = ["v"%string]) by (vm_compute; reflexivity).
  induction fuel as [|fuel IH]; intros st Hst; [done|].
  cbn [processPackage]. rewrite Hden, Hprov, Hig, Himps.
  cbn [Goroot pv andb processImports pkgs ImportPath].
  rewrite lookup_insert_ne, Hst by done.
  rewrite IH; [done|]. cbn [pkgs ImportPath pv]. by rewrite lookup_insert_ne.
Qed.

(** X4. No run prints part of a graph. A run that returns ends in one
    of two ways. Either it is aborted: nothing on standard output, one
    message on the error stream, exit status 1. Or it prints a whole
    graph: the opening line, the [rankdir] line exactly when
    [-horizontal] is set, then node and edge statements only, then the
    closing line, with nothing on the error stream and exit status 0.
    With any number of arguments other than one, and when the working
    directory cannot be read, the run returns aborted, with its message,
    before the provider is consulted, whatever the recursion bound.
    When the provider returns every descriptor under the requested path
    and all imports lie in a finite universe that holds the root, the
    run returns within a recursion depth of the size of the universe,
    in one of the two ways. A run need not return at all: under [-t], a
    package [v] resolved as [vendor/v] whose external test imports [v]
    makes [processPackage] call itself beyond every depth. *)
Theorem run_prints_whole_graph_or_nothing :
  (forall provider range fl args getwd fuel run,
     main provider range fl args getwd fuel = Some run ->
     aborted run \/ whole_graph fl run) /\
  (forall provider range fl args getwd fuel,
     length args <> 1%nat ->
     exists run,
       main provider range fl args getwd fuel = Some run /\
       exit_code run = 1 /\ stdout run = [] /\
       stderr run = ["need one package name to process"] /\
       provider_calls run = []) /\
  (forall provider range fl root err fuel,
     exists run,
       main provider range fl [root] (inr err) fuel = Some run /\
       exit_code run = 1 /\ stdout run = [] /\
       stderr run = ["failed to get cwd: " +:+ err] /\
       provider_calls run = []) /\
  (forall provider range fl root cwd universe fuel,
     provider_closed provider (configure fl) cwd universe ->
     root ∈ universe ->
     (length universe <= fuel)%nat ->
     exists run,
       main provider range fl [root] (inl cwd) (S fuel) = Some run /\
       (aborted run \/ whole_graph fl run)) /\
  (forall range cwd fuel,
     vendoring_provider [] "v" cwd = Found (mkPackage "vendor/v" false [] [] [] ["v"]) /\
     main vendoring_provider range
       (mkFlags false false EmptyString EmptyString EmptyString EmptyString false true)
       ["v"] (inl cwd) fuel = None).
Proof.
  split; [|split; [|split; [|split]]].
  - apply main_returns_well.
  - intros provider range fl args getwd fuel Hlen.
    destruct args as [|root [|? ?]]; [|done|]; by eexists.
  - intros. by eexists.
  - intros provider range fl root cwd universe fuel Hclosed Hroot Hfuel.
    destruct (processPackage_total provider (configure fl) cwd universe Hclosed fuel
                root resolver0 Hroot) as (st & r & Hrun & _).
    + apply lookup_empty.
    + etrans; [|exact Hfuel]. unfold pending. simpl.
      rewrite dom_empty_L, difference_empty_L. apply size_list_to_set_le.
    + assert (Hmain : exists run,
                main provider range fl [root] (inl cwd) (S fuel) = Some run).
      { unfold main. cbv zeta. rewrite Hrun. destruct r; by eexists. }
      destruct Hmain as [run Hmain]. exists run. split; [done|].
      by eapply main_returns_well.
  - intros range cwd fuel. split; [reflexivity|].
    unfold main. cbv zeta. by rewrite vendored_test_recurs.
Qed.

(** No argument at all. *)
Lemma run_prints_whole_graph_or_nothing_witness :
  exists run,
    main sample_provider map_to_list defaultFlags [] (inl "/src") 0 = Some run /\
    exit_code run = 1 /\ stdout run = [] /\
    stderr run = ["need one package name to process"] /\
    provider_calls run = [].
Proof.
  apply (proj1 (proj2 run_prints_whole_graph_or_nothing) sample_provider map_to_list
           defaultFlags [] (inl "/src"%string) 0%nat).
  simpl. discriminate.
Defined.

Lemma range_empty (range : Range) : range_ok range -> range ∅ = [].
Proof.
  intros Hr. apply Permutation_nil_r. by rewrite (Hr ∅), map_to_list_empty.
Qed.

(** X5. A root that the filter excludes gives the empty graph, not an
    error: when the root's name is in the exact denylist the provider is
    not consulted at all, and when the root's descriptor fails
    [isIgnored] it is consulted once; either way nothing is stored, the
    output is the opening and closing lines, and the exit status is 0. *)
Theorem excluded_root_gives_empty_graph (provider : Provider) (range : Range)
    (fl : Flags) (root cwd : string) (fuel : nat) :
  range_ok range ->
  (ignored_at (configure fl) root = true ->
   exists run,
     main provider range fl [root] (inl cwd) (S fuel) = Some run /\
     exit_code run = 0 /\ stderr run = [] /\
     stdout run = header (configure fl) ++ [Footer] /\
     store run = ∅ /\ provider_calls run = []) /\
  (forall pkg,
     ignored_at (configure fl) root = false ->
     provider (buildTags (configure fl)) root cwd = Found pkg ->
     isIgnored (configure fl) pkg = true ->
     exists run,
       main provider range fl [root] (inl cwd) (S fuel) = Some run /\
       exit_code run = 0 /\ stderr run = [] /\
       stdout run = header (configure fl) ++ [Footer] /\
       store run = ∅ /\ provider_calls run = [root]).
Proof.
  intros Hr. split.
  - intros Hden. unfold main. cbv zeta.
    rewrite processPackage_denied by done.
    eexists. split; [reflexivity|]. unfold render. simpl pkgs.
    by rewrite (range_empty _ Hr).
  - intros pkg Hden Hprov Hig. unfold main. cbv zeta.
    rewrite (processPackage_filtered _ _ _ _ _ _ pkg) by done.
    eexists. split; [reflexivity|]. unfold render. simpl pkgs.
    by rewrite (range_empty _ Hr).
Qed.

(** The root [C], and the root [fmt] under [-s]. *)
Lemma excluded_root_gives_empty_graph_witness :
  (exists run,
     main sample_provider map_to_list defaultFlags ["C"] (inl "/src") 1 = Some run /\
     stdout run = [Header; Footer] /\ provider_calls run = []) /\
  (exists run,
     main sample_provider map_to_list
       (mkFlags true false EmptyString EmptyString EmptyString EmptyString false false)
       ["fmt"] (inl "/src") 1 = Some run /\
     stdout run = [Header; Footer] /\ provider_calls run = ["fmt"]).
Proof.
  split.
  - destruct (proj1 (excluded_root_gives_empty_graph sample_provider map_to_list
                       defaultFlags "C" "/src" 0 range_ok_map_to_list) eq_refl)
      as (run & Hm & _ & _ & Hout & _ & Hcalls).
    exists run. split; [exact Hm|]. split; [exact Hout | exact Hcalls].
  - destruct (proj2 (excluded_root_gives_empty_graph sample_provider map_to_list
                       (mkFlags true false EmptyString EmptyString EmptyString EmptyString
                                false false)
                       "fmt" "/src" 0 range_ok_map_to_list)
                    (pkg_of "fmt" true ["errors"; "os"]) eq_refl eq_refl eq_refl)
      as (run & Hm & _ & _ & Hout & _ & Hcalls).
    exists run. split; [exact Hm|]. split; [exact Hout | exact Hcalls].
Defined.

(** ** Nodes of the output *)

Lemma render_within (cfg : Config) (range : Range) (st : Resolver) :
  range_ok range ->
  Z.of_nat (size (pkgs st)) <= max_int ->
  within (alloc (render cfg range st)) (pkgs st).
Proof.
  intros Hr Hb. unfold render.
  destruct (renderPackages cfg (pkgs st) (range (pkgs st)) alloc0 (header cfg))
    as [a out] eqn:Hrun. simpl.
  assert (Hkeys : forall e, e ∈ range (pkgs st) -> is_Some (pkgs st !! e.1)).
  { intros [k p] He. apply (elem_of_range _ _ _ _ Hr) in He. simpl. by rewrite He. }
  assert (Hw0 : within alloc0 (pkgs st)).
  { intros k. simpl. rewrite lookup_empty. by intros [? ?]. }
  by destruct (renderPackages_ok cfg (pkgs st) _ Hb Hkeys _ _ _ _ Hrun alloc0_ok Hw0).
Qed.

(** Where a node statement of a run comes from. *)
Lemma node_of_run (provider : Provider) (range : Range) (fl : Flags)
    (args : list string) (getwd : string + string) (fuel : nat) (run : Run)
    (i : Z) (l c : string) :
  main provider range fl args getwd fuel = Some run ->
  range_ok range ->
  NodeStmt i l c ∈ stdout run ->
  exists p, store run !! l = Some p /\ ImportPath p = l /\
            isIgnored (configure fl) p = false /\ c = color_of p /\
            ids (alloc run) !! l = Some i.
Proof.
  intros Hmain Hr Hin.
  apply main_inv in Hmain as [(msg & ->) | [(root & cwd & st & err & -> & -> & Hres & ->)
                                          | (root & cwd & st & -> & -> & Hres & ->)]];
    [by apply elem_of_nil in Hin.. |].
  apply (proj1 (resolves_store_ok provider (configure fl) cwd)) in Hres.
  2:{ intros k p. simpl. by rewrite lookup_empty. }
  destruct (render_spec (configure fl) range st) as (Hst & _ & _ & _ & Hout & Hdom).
  rewrite Hst, Hout in *. clear Hout.
  apply elem_of_app in Hin as [Hin | Hin]; [by apply no_node_in_header in Hin|].
  apply elem_of_app in Hin as [Hin | Hin]; [|by apply list_elem_of_singleton in Hin].
  apply elem_of_statements in Hin as ([k p] & He & Hin).
  apply node_in_statements in Hin as (Hig & -> & -> & ->). simpl in *.
  assert (Hk : is_Some (ids (alloc (render (configure fl) range st)) !! k)).
  { apply Hdom. exists (k, p). split; [done|]. left. }
  apply (elem_of_range range) in He; [|done].
  destruct (Hres k p He) as [Hpath _]. exists p. repeat split; try done.
  destruct Hk as [v Hv]. unfold id_in. by rewrite Hv.
Qed.

(** X6. A graph has one node statement per stored package, labelled
    with its import path: the labels are the keys of the store, each
    once; a node's colour is that of the stored descriptor; and (with
    fewer than [2^63] packages) the identifiers are distinct integers
    from [0] to the number of stored packages, excluded. *)
Theorem one_node_per_stored_package (provider : Provider) (range : Range)
    (fl : Flags) (args : list string) (getwd : string + string) (fuel : nat)
    (run : Run) :
  main provider range fl args getwd fuel = Some run ->
  exit_code run = 0 ->
  range_ok range ->
  Z.of_nat (size (store run)) <= max_int ->
  node_labels (stdout run) ≡ₚ (map_to_list (store run)).*1 /\
  (forall i l c, NodeStmt i l c ∈ stdout run ->
     0 <= i < Z.of_nat (size (store run)) /\
     exists p, store run !! l = Some p /\ c = color_of p) /\
  (forall i l l' c c',
     NodeStmt i l c ∈ stdout run -> NodeStmt i l' c' ∈ stdout run -> l = l').
Proof.
  intros Hmain Hexit Hr Hsize.
  assert (Hnode := node_of_run provider range fl args getwd fuel run).
  apply main_inv in Hmain as Hcases.
  destruct Hcases as [(msg & ->) | [(root & cwd & st & err & -> & -> & Hres & ->)
                                   | (root & cwd & st & -> & -> & Hres & ->)]];
    [done.. |].
  specialize (fun i l c => Hnode i l c Hmain Hr).
  apply (proj1 (resolves_store_ok provider (configure fl) cwd)) in Hres.
  2:{ intros k p. simpl. by rewrite lookup_empty. }
  destruct (render_spec (configure fl) range st) as (Hst & _ & _ & _ & Hout & _).
  rewrite Hst in *.
  pose proof (render_alloc_ok (configure fl) range st Hr Hsize) as (Hnext & Hrange & Hinj).
  pose proof (render_within (configure fl) range st Hr Hsize) as Hw.
  split; [|split].
  - rewrite Hout, !node_labels_app, node_labels_header, node_labels_concat.
    + simpl. rewrite app_nil_r. by rewrite (Hr (pkgs st)).
    + intros [k p] He. apply (elem_of_range range) in He; [|done].
      by destruct (Hres k p He).
  - intros i l c Hin. destruct (Hnode i l c Hin) as (p & Hp & _ & _ & Hc & Hi).
    split; [|by exists p]. apply Hrange in Hi as Hb. rewrite Hnext in Hb.
    assert (size (ids (alloc (render (configure fl) range st))) <= size (pkgs st))%nat;
      [|lia].
    rewrite <- (size_dom (D := gset string) (ids _)),
      <- (size_dom (D := gset string) (pkgs st)).
    apply subseteq_size. intros x. rewrite !elem_of_dom. apply Hw.
  - intros i l l' c c' H1 H2.
    destruct (Hnode i l c H1) as (_ & _ & _ & _ & _ & Hi).
    destruct (Hnode i l' c' H2) as (_ & _ & _ & _ & _ & Hi').
    by eapply Hinj.
Qed.

(** The three-package workspace. *)
Lemma one_node_per_stored_package_witness :
  exists run,
    main sample_provider map_to_list defaultFlags ["app"] (inl "/src") 3 = Some run /\
    node_labels (stdout run) ≡ₚ (map_to_list (store run)).*1.
Proof.
  eexists. split; [vm_compute; reflexivity|].
  refine (proj1 (one_node_per_stored_package sample_provider map_to_list defaultFlags
                   ["app"] (inl "/src"%string) 3 _ eq_refl eq_refl range_ok_map_to_list _)).
  vm_compute. discriminate.
Defined.

Lemma isIgnored_false (cfg : Config) (pkg : Package) :
  isIgnored cfg pkg = false ->
  (onlyPrefixes cfg <> [] ->
   exists p, p ∈ onlyPrefixes cfg /\ starts_with (ImportPath pkg) p) /\
  ~ in_denylist cfg (ImportPath pkg) /\
  (ignoreStdlib (flags cfg) = true -> Goroot pkg = false) /\
  (forall p, p ∈ ignoredPrefixes cfg -> ~ starts_with (ImportPath pkg) p).
Proof.
  unfold isIgnored. intros Hig.
  destruct ((0 <? Z.of_nat (length (onlyPrefixes cfg)))
            && negb (hasPrefixes (ImportPath pkg) (onlyPrefixes cfg))) eqn:Hallow; [done|].
  apply orb_false_iff in Hig as [Hig Hpre]. apply orb_false_iff in Hig as [Hden Hstd].
  split; [|split; [|split]].
  - intros Hne. apply hasPrefixes_spec.
    apply andb_false_iff in Hallow as [Hlen | Hhas].
    + destruct (onlyPrefixes cfg); [done | simpl in Hlen; apply Z.ltb_ge in Hlen; lia].
    + by apply negb_false_iff in Hhas.
  - rewrite <- ignored_at_true. congruence.
  - intros Hs. rewrite Hs, andb_true_r in Hstd. done.
  - by apply hasPrefixes_false.
Qed.

(** X7. Every node of a graph passes every rule given on the command
    line: its label is not ["C"] and not a field of [-i], it starts with
    a field of [-o] when [-o] is given, it starts with no field of
    [-p], and under [-s] it is not coloured as a standard-library
    package. *)
Theorem nodes_respect_the_flags (provider : Provider) (range : Range)
    (fl : Flags) (args : list string) (getwd : string + string) (fuel : nat)
    (run : Run) (i : Z) (l c : string) :
  main provider range fl args getwd fuel = Some run ->
  range_ok range ->
  NodeStmt i l c ∈ stdout run ->
  l <> "C" /\
  (l ∉ split_flag (ignorePackages fl)) /\
  (onlyPrefix fl <> EmptyString ->
   exists p, p ∈ split_flag (onlyPrefix fl) /\ starts_with l p) /\
  (forall p, p ∈ split_flag (ignorePrefixes fl) -> ~ starts_with l p) /\
  (ignoreStdlib fl = true -> c <> "palegreen").
Proof.
  intros Hmain Hr Hin.
  destruct (node_of_run _ _ _ _ _ _ _ _ _ _ Hmain Hr Hin) as (p & _ & Hpath & Hig & Hc & _).
  apply isIgnored_false in Hig as (Hallow & Hden & Hstd & Hpre).
  rewrite Hpath in *. simpl in *.
  unfold in_denylist, configure in Hden. simpl in Hden.
  rewrite lookup_foldl_insert_true in Hden.
  split; [intros ->; apply Hden; by left|]. split; [tauto|]. split; [|split; [done|]].
  - intros Hne. apply Hallow. unfold split_flag.
    destruct (onlyPrefix fl); [done|]. apply split_comma_nonempty.
  - intros Hs. subst c. unfold color_of. rewrite (Hstd Hs).
    by destruct (0 <? Z.of_nat (length (CgoFiles p))).
Qed.

(** Under [-i lib/b], the node of [app]. *)
Lemma nodes_respect_the_flags_witness :
  "app"%string ∉ split_flag (ignorePackages exclude_lib_b).
Proof.
  refine (proj1 (proj2 (nodes_respect_the_flags sample_provider map_to_list exclude_lib_b
                          ["app"] (inl "/src"%string) 3 _ 0 "app" "paleturquoise"
                          eq_refl range_ok_map_to_list _))).
  vm_compute. right. left.
Defined.

(** X8. The colour of a node tells the class of its package, with the
    standard library taking precedence over cgo: [palegreen] exactly
    for a package of the standard library (with or without cgo files),
    [darkgoldenrod1] exactly for a package outside it that has cgo
    files, [paleturquoise] exactly for a package outside it that has
    none. *)
Theorem node_colour_tells_the_class (provider : Provider) (range : Range)
    (fl : Flags) (args : list string) (getwd : string + string) (fuel : nat)
    (run : Run) (i : Z) (l c : string) :
  main provider range fl args getwd fuel = Some run ->
  range_ok range ->
  NodeStmt i l c ∈ stdout run ->
  exists p,
    store run !! l = Some p /\
    (c = "palegreen" <-> Goroot p = true) /\
    (c = "darkgoldenrod1" <-> Goroot p = false /\ CgoFiles p <> []) /\
    (c = "paleturquoise" <-> Goroot p = false /\ CgoFiles p = []).
Proof.
  intros Hmain Hr Hin.
  destruct (node_of_run _ _ _ _ _ _ _ _ _ _ Hmain Hr Hin) as (p & Hp & _ & _ & -> & _).
  exists p. split; [done|]. unfold color_of.
  destruct (Goroot p); [by repeat split; try done; intros [? _]|].
  destruct (CgoFiles p) as [|f fs]; simpl;
    (split; [done|]); split; split; try done; by intros [_ ?].
Qed.

(** The node of [fmt] in the graph of [cmd/tool]. *)
Lemma node_colour_tells_the_class_witness :
  exists p,
    sample_provider [] "fmt" "/src" = Found p /\
    ("palegreen"%string = "palegreen"%string <-> Goroot p = true).
Proof.
  destruct (node_colour_tells_the_class sample_provider map_to_list defaultFlags
              ["cmd/tool"] (inl "/src"%string) 2
              (render (configure defaultFlags) map_to_list
                 (mkResolver
                    (<["os" := pkg_of "os" true ["errors"]]>
                       (<["fmt" := pkg_of "fmt" true ["errors"; "os"]]>
                          (<["cmd/tool" := pkg_of "cmd/tool" false ["fmt"; "os"]]> ∅)))
                    ["cmd/tool"; "fmt"; "os"]))
              2 "fmt" "palegreen") as (p & Hp & Hgreen & _).
  - vm_compute. reflexivity.
  - exact range_ok_map_to_list.
  - vm_compute. do 5 right. left.
  - exists p. split; [|exact Hgreen].
    vm_compute in Hp. injection Hp as <-. reflexivity.
Defined.

(** ** What the resolver finds *)

Section Reachability.
Variable provider : Provider.
Variable cfg : Config.
Variable root : string.
Variable top : string.
Hypothesis Hcanon : provider_canonical provider cfg root.

Local Abbreviation resolves' := (resolves provider cfg root).
Local Abbreviation resolves_imports' := (resolves_imports provider cfg root).
Local Abbreviation accepted' := (accepted provider cfg root).
Local Abbreviation reachable' := (reachable provider cfg root top).
Local Abbreviation store_sound := (store_sound provider cfg root top).

Lemma accepted_intro (name : string) (pkg : Package) :
  ignored_at cfg name = false ->
  provider (buildTags cfg) name root = Found pkg ->
  isIgnored cfg pkg = false ->
  accepted' name = Some pkg /\ ImportPath pkg = name.
Proof.
  intros Hden Hprov Hig. unfold accepted. rewrite Hden, Hprov, Hig.
  split; [done | by apply Hcanon].
Qed.

Lemma store_sound_stored (name : string) (pkg : Package) (st : Resolver) :
  accepted' name = Some pkg -> ImportPath pkg = name ->
  (accepted' name = Some pkg -> reachable' name) ->
  store_sound st -> store_sound (stored pkg (logged name st)).
Proof.
  intros Hacc Hpath Hreach Hs k p. simpl. rewrite Hpath, lookup_insert.
  case_decide; [|apply Hs]. intros [= <-]. subst k. auto.
Qed.

Lemma resolves_store_sound :
  (forall name st st' r,
     resolves' name st st' r ->
     (forall q, accepted' name = Some q -> reachable' name) ->
     store_sound st -> store_sound st') /\
  (forall imps st st' r,
     resolves_imports' imps st st' r ->
     (forall imp q, imp ∈ imps -> accepted' imp = Some q -> reachable' imp) ->
     store_sound st -> store_sound st').
Proof.
  apply resolves_mutind; auto.
  - intros name st pkg Hden Hprov Hig _ Hreach Hs.
    destruct (accepted_intro name pkg) as [Hacc Hpath]; try done.
    apply store_sound_stored; eauto.
  - intros name st pkg st' r Hden Hprov Hig Hexp _ IH Hreach Hs.
    destruct (accepted_intro name pkg) as [Hacc Hpath]; try done.
    apply IH.
    + intros imp q Himp Hq. eapply reachable_import; eauto.
      unfold expands. by rewrite Hexp.
    + apply store_sound_stored; eauto.
  - intros imp rest st st' r pkg _ _ IH Hreach Hs. apply IH; [|done].
    intros i q Hi. apply Hreach. by right.
  - intros imp rest st st1 err _ _ IH Hreach Hs. apply IH; [|done].
    intros q. apply Hreach. left.
  - intros imp rest st st1 st' r _ _ IH1 _ IH2 Hreach Hs. apply IH2.
    + intros i q Hi. apply Hreach. by right.
    + apply IH1; [|done]. intros q. apply Hreach. left.
Qed.

Lemma closed_since_refl (st st' : Resolver) :
  pkgs st' = pkgs st -> closed_since provider cfg root st st'.
Proof. intros Heq k pk imp [p Hk] Hn. rewrite Heq in Hk. congruence. Qed.

Lemma closed_since_trans (st st1 st' : Resolver) :
  (forall k, is_Some (pkgs st1 !! k) -> is_Some (pkgs st' !! k)) ->
  closed_since provider cfg root st st1 ->
  closed_since provider cfg root st1 st' ->
  closed_since provider cfg root st st'.
Proof.
  intros Hmono H1 H2 k pk imp Hk Hn Hacc Hexp Himp Hq.
  destruct (pkgs st1 !! k) as [p1|] eqn:Hk1.
  - apply Hmono. eapply H1; eauto.
  - eapply H2; eauto.
Qed.

(** A call that returns [nil] has stored its path, if accepted, and
    everything reachable from the keys it added. *)
Lemma resolves_closed :
  (forall name st st' r,
     resolves' name st st' r -> r = Done ->
     (is_Some (accepted' name) -> is_Some (pkgs st' !! name)) /\
     closed_since provider cfg root st st') /\
  (forall imps st st' r,
     resolves_imports' imps st st' r -> r = Done ->
     (forall imp, imp ∈ imps -> is_Some (accepted' imp) -> is_Some (pkgs st' !! imp)) /\
     closed_since provider cfg root st st').
Proof.
  apply resolves_mutind.
  - intros name st Hden _. split; [|by apply closed_since_refl].
    unfold accepted. rewrite Hden. by intros [? ?].
  - done.
  - intros name st pkg Hden Hprov Hig _. split; [|by apply closed_since_refl].
    unfold accepted. rewrite Hden, Hprov, Hig. by intros [? ?].
  - intros name st pkg Hden Hprov Hig Hleaf _.
    destruct (accepted_intro name pkg) as [Hacc Hpath]; try done.
    split; [intros _; simpl; rewrite Hpath, lookup_insert_eq; eauto|].
    intros k pk imp Hk Hn Hacck Hexp. simpl in Hk. rewrite Hpath in Hk.
    apply lookup_insert_is_Some in Hk as [<- | [_ [? ?]]]; [|congruence].
    assert (pk = pkg) as -> by congruence. unfold expands in Hexp.
    by rewrite Hleaf in Hexp.
  - intros name st pkg st' r Hden Hprov Hig Hexp Hloop IH ->.
    destruct (accepted_intro name pkg) as [Hacc Hpath]; try done.
    destruct (IH eq_refl) as [Himps Hclosed].
    pose proof (proj2 (resolves_dom_mono provider cfg root) _ _ _ _ Hloop) as Hmono.
    assert (Hname : is_Some (pkgs st' !! name)).
    { apply Hmono. simpl. rewrite Hpath, lookup_insert_eq. eauto. }
    split; [done|].
    intros k pk imp Hk Hn Hacck Hexpk Himp Hq.
    destruct (decide (k = name)) as [-> | Hne].
    + assert (pk = pkg) as -> by congruence. by apply Himps.
    + eapply Hclosed; eauto. simpl. by rewrite Hpath, lookup_insert_ne.
  - intros st _. split; [intros imp Himp; by apply elem_of_nil in Himp|].
    by apply closed_since_refl.
  - intros imp rest st st' r pkg Hs Hloop IH ->.
    destruct (IH eq_refl) as [Himps Hclosed]. split; [|done].
    intros i Hi Hq. apply elem_of_cons in Hi as [-> | Hi]; [|by apply Himps].
    apply (proj2 (resolves_dom_mono provider cfg root) _ _ _ _ Hloop). by rewrite Hs.
  - done.
  - intros imp rest st st1 st' r Hs Hcall IH1 Hloop IH2 ->.
    destruct (IH1 eq_refl) as [Himp1 Hclosed1].
    destruct (IH2 eq_refl) as [Himps Hclosed2].
    pose proof (proj2 (resolves_dom_mono provider cfg root) _ _ _ _ Hloop) as Hmono.
    split; [|by eapply closed_since_trans].
    intros i Hi Hq. apply elem_of_cons in Hi as [-> | Hi]; [|by apply Himps].
    by apply Hmono, Himp1.
Qed.

(** From the empty store, a call for [top] that returns [nil] leaves
    exactly the reachable paths, each with its accepted descriptor. *)
Lemma resolves_reachable (st : Resolver) :
  resolves' top resolver0 st Done ->
  forall k p, pkgs st !! k = Some p <-> reachable' k /\ accepted' k = Some p.
Proof.
  intros Hres.
  assert (Hsound : store_sound st).
  { apply (proj1 resolves_store_sound _ _ _ _ Hres).
    - intros q Hq. by eapply reachable_top.
    - intros k p. simpl. by rewrite lookup_empty. }
  destruct (proj1 resolves_closed _ _ _ _ Hres eq_refl) as [Htop Hclosed].
  intros k p. split; [apply Hsound|]. intros [Hreach Hacc].
  assert (Hin : is_Some (pkgs st !! k)).
  { clear p Hacc. induction Hreach as [pkg Hpkg | name pkg imp q _ IH Hpkg Hexp Himp Hq].
    - apply Htop. eauto.
    - eapply Hclosed; eauto. }
  destruct Hin as [p' Hp']. destruct (Hsound k p' Hp') as [_ Hacc']. congruence.
Qed.
End Reachability.

(** X9. With a provider that returns descriptors under the requested
    paths, a run that prints a graph has stored exactly the packages
    reachable from the root: the root if the resolver accepts it (name
    outside the exact denylist, descriptor found and passing the
    filter), and every accepted import of a stored package that is
    expanded (outside the standard library, or [-d] set); each under the
    descriptor the provider returns for it. *)
Theorem store_is_the_reachable_set (provider : Provider) (range : Range)
    (fl : Flags) (top cwd : string) (fuel : nat) (run : Run) :
  provider_canonical provider (configure fl) cwd ->
  main provider range fl [top] (inl cwd) fuel = Some run ->
  exit_code run = 0 ->
  forall k p,
    store run !! k = Some p <->
    reachable provider (configure fl) cwd top k /\
    accepted provider (configure fl) cwd k = Some p.
Proof.
  intros Hcanon Hmain Hexit.
  apply main_inv in Hmain as [(msg & ->) | [(r & c & st & err & _ & _ & _ & ->)
                                          | (r & c & st & [= <-] & [= <-] & Hres & ->)]];
    [done.. |].
  destruct (render_spec (configure fl) range st) as (-> & _).
  by apply resolves_reachable.
Qed.

(** [lib/b] is stored in the graph of [app], so it is reachable. *)
Lemma store_is_the_reachable_set_witness :
  reachable sample_provider (configure defaultFlags) "/src" "app" "lib/b".
Proof.
  refine (proj1 (proj1 (store_is_the_reachable_set sample_provider map_to_list defaultFlags
                          "app" "/src" 3 _ (sample_provider_canonical _ _) eq_refl eq_refl
                          "lib/b" (pkg_of "lib/b" false [])) _)).
  vm_compute. reflexivity.
Defined.

(** ** How often the provider is asked *)

(** X10. With a provider that returns descriptors under the requested
    paths, a run asks the provider at most once for any path it
    accepts, and exactly once for each path it stores, however many
    packages import it; this also holds of a run that is aborted. *)
Theorem stored_packages_are_looked_up_once (provider : Provider) (range : Range)
    (fl : Flags) (args : list string) (cwd : string) (fuel : nat) (run : Run) :
  provider_canonical provider (configure fl) cwd ->
  main provider range fl args (inl cwd) fuel = Some run ->
  NoDup (filter (fun k => is_Some (accepted provider (configure fl) cwd k))
                (provider_calls run)) /\
  (forall k, is_Some (store run !! k) ->
     length (filter (fun x => x = k) (provider_calls run)) = 1%nat).
Proof.
  intros Hcanon Hmain.
  assert (H0 : lookups_ok provider (configure fl) cwd resolver0).
  { split; [constructor|]. split; [intros k Hk; by apply elem_of_nil in Hk|].
    intros k. simpl. rewrite lookup_empty. by intros [? ?]. }
  assert (Hok : exists st, store run = pkgs st /\ provider_calls run = lookups st /\
                           lookups_ok provider (configure fl) cwd st).
  { apply main_inv in Hmain as [(msg & ->) | [(r & c & st & err & -> & [= <-] & Hres & ->)
                                            | (r & c & st & -> & [= <-] & Hres & ->)]].
    - by exists resolver0.
    - exists st. split; [done|]. split; [done|].
      by apply (proj1 (resolves_lookups_ok provider (configure fl) cwd Hcanon) _ _ _ _ Hres).
    - exists st. destruct (render_spec (configure fl) range st) as (-> & -> & _).
      split; [done|]. split; [done|].
      by apply (proj1 (resolves_lookups_ok provider (configure fl) cwd Hcanon) _ _ _ _ Hres). }
  destruct Hok as (st & -> & -> & Hnd & Hstored & Hlooked).
  split; [done|]. intros k Hk. destruct (Hlooked k Hk) as [Hin Hacc].
  rewrite <- (filter_eq_NoDup _ k Hnd).
  - rewrite list_filter_filter. f_equal. apply list_filter_iff.
    intros x. split; [intros ->; done | tauto].
  - by apply list_elem_of_filter.
Qed.

(** In the graph of [app], [lib/b] is imported by [app] and by [lib/a]
    and looked up once. *)
Lemma stored_packages_are_looked_up_once_witness :
  length (filter (fun x => x = "lib/b"%string) ["app"; "lib/a"; "lib/b"]%string) = 1%nat.
Proof.
  refine (proj2 (stored_packages_are_looked_up_once sample_provider map_to_list
                   defaultFlags ["app"] "/src" 3 _ (sample_provider_canonical _ _) eq_refl)
                "lib/b"%string _).
  vm_compute. eauto.
Defined.

(** ** Termination of the sample runs *)

Lemma sample_provider_closed (root : string) :
  provider_closed sample_provider (configure defaultFlags) root sample_universe.
Proof.
  assert (Hall : Forall (fun p => Forall (fun imp => imp ∈ sample_universe)
                                      (getImports (configure defaultFlags) p))
                        sample_packages).
  { apply (bool_decide_unpack _). vm_compute. exact I. }
  intros name pkg Hprov. split; [by eapply sample_provider_canonical|].
  unfold sample_provider in Hprov.
  destruct (List.find _ sample_packages) as [p|] eqn:Hf; [|done].
  injection Hprov as ->. apply List.find_some in Hf as [Hin _].
  apply list_elem_of_In in Hin. rewrite Forall_forall in Hall.
  specialize (Hall pkg Hin). by rewrite Forall_forall in Hall.
Qed.

(** The sample workspace has ten paths. *)
Lemma main_terminates_witness :
  exists run,
    main sample_provider map_to_list defaultFlags ["svc"] (inl "/src") 11 = Some run.
Proof.
  apply (main_terminates sample_provider map_to_list defaultFlags ["svc"]
           (inl "/src"%string) sample_universe 10).
  - intros cwd root _ [= <-]. split; [apply sample_provider_closed|].
    unfold sample_universe. do 8 right. left.
  - simpl. lia.
Defined.

(** ** More on import normalisation *)

Lemma first_occurrences_NoDup (l : list string) :
  NoDup l -> first_occurrences l = l.
Proof.
  induction l as [|x l IH]; [done|]. intros Hnd.
  apply NoDup_cons in Hnd as [Hx Hnd]. simpl. rewrite IH by done. f_equal.
  apply filter_all. intros y Hy ->. done.
Qed.

(** X12. [getImports] invents and reorders nothing: its result is a
    subsequence of the combined import list (of [Imports] alone
    without [-t]); a list with no duplicate and no self-reference is
    returned as it is; and so normalising an already normalised list
    changes nothing. *)
Theorem getImports_is_a_subsequence (cfg : Config) (pkg : Package) :
  sublist (getImports cfg pkg) (allImports cfg pkg) /\
  (includeTests (flags cfg) = false -> sublist (getImports cfg pkg) (Imports pkg)) /\
  (NoDup (allImports cfg pkg) -> ImportPath pkg ∉ allImports cfg pkg ->
   getImports cfg pkg = allImports cfg pkg) /\
  (forall pkg',
     ImportPath pkg' = ImportPath pkg ->
     allImports cfg pkg' = getImports cfg pkg ->
     getImports cfg pkg' = getImports cfg pkg).
Proof.
  assert (Hsub : sublist (getImports cfg pkg) (allImports cfg pkg)).
  { rewrite getImports_normalised. unfold normalised_imports.
    etrans; [apply first_occurrences_sublist | apply sublist_filter]. }
  assert (Hid : forall p, NoDup (allImports cfg p) -> ImportPath p ∉ allImports cfg p ->
                          getImports cfg p = allImports cfg p).
  { intros p Hnd Hself. rewrite getImports_normalised. unfold normalised_imports.
    rewrite filter_all by (intros y Hy ->; done). by apply first_occurrences_NoDup. }
  split; [done|]. split; [|split; [apply Hid|]].
  - intros Ht. unfold allImports in Hsub. by rewrite Ht in Hsub.
  - intros pkg' Hpath Hall. rewrite <- Hall. apply Hid; rewrite Hall.
    + apply NoDup_getImports.
    + rewrite Hpath, elem_of_getImports. tauto.
Qed.

(** [app] lists [lib/a] and [lib/b], once each. *)
Lemma getImports_is_a_subsequence_witness :
  getImports (configure defaultFlags) (pkg_of "app" false ["lib/a"; "lib/b"])
  = ["lib/a"; "lib/b"]%string.
Proof.
  apply (proj1 (proj2 (proj2 (getImports_is_a_subsequence (configure defaultFlags)
                                (pkg_of "app" false ["lib/a"; "lib/b"])))));
    change (allImports (configure defaultFlags) (pkg_of "app" false ["lib/a"; "lib/b"]))
      with ["lib/a"; "lib/b"]%string.
  - apply NoDup_cons. split; [|apply NoDup_singleton].
    intros H. apply list_elem_of_singleton in H. discriminate.
  - simpl. intros H. repeat (apply elem_of_cons in H as [H | H]; [discriminate|]).
    by apply elem_of_nil in H.
Defined.

(** ** Edges of the output, by label *)

(** X13. The edges of a graph are the import relation among the stored
    packages: for stored packages [k] and [l], the statement joining the
    identifier of [k] to that of [l] is printed exactly when [k] is
    expanded (outside the standard library, or [-d] set) and [l] is,
    letter for letter, one of the normalised imports of [k]. So an
    import that the provider resolved under another path has a node but
    no edge from its importer. (Fewer than [2^63] packages.) *)
Theorem edges_are_the_imports_among_stored (provider : Provider) (range : Range)
    (fl : Flags) (args : list string) (getwd : string + string) (fuel : nat)
    (run : Run) (k l : string) (p q : Package) :
  main provider range fl args getwd fuel = Some run ->
  exit_code run = 0 ->
  range_ok range ->
  Z.of_nat (size (store run)) <= max_int ->
  store run !! k = Some p ->
  store run !! l = Some q ->
  (EdgeStmt (id_in (alloc run) k) (id_in (alloc run) l) ∈ stdout run <->
   expands (configure fl) p = true /\ l ∈ getImports (configure fl) p).
Proof.
  intros Hmain Hexit Hr Hsize Hk Hl.
  apply main_inv in Hmain as [(msg & ->) | [(root & cwd & st & err & -> & -> & Hres & ->)
                                          | (root & cwd & st & -> & -> & Hres & ->)]];
    [done.. |].
  apply (proj1 (resolves_store_ok provider (configure fl) cwd)) in Hres.
  2:{ intros k' p'. simpl. by rewrite lookup_empty. }
  destruct (render_spec (configure fl) range st) as (Hst & _ & _ & _ & Hout & Hdom).
  rewrite Hst in *.
  pose proof (render_alloc_ok (configure fl) range st Hr Hsize) as Hok.
  assert (Hnamed : forall k' p', pkgs st !! k' = Some p' ->
            is_Some (ids (alloc (render (configure fl) range st)) !! k')).
  { intros k' p' Hk'. apply Hdom. exists (k', p').
    split; [by apply (elem_of_range range) | left]. }
  assert (Hbody : forall i j,
            EdgeStmt i j ∈ stdout (render (configure fl) range st) <->
            exists e, e ∈ range (pkgs st) /\
              EdgeStmt i j ∈ statements_of (configure fl) (pkgs st)
                               (id_in (alloc (render (configure fl) range st))) e).
  { intros i j. rewrite Hout, !elem_of_app, elem_of_statements. split; [|by right; left].
    intros [H | [H | H]]; [by apply no_edge_in_header in H | done
                           | by apply list_elem_of_singleton in H]. }
  rewrite Hbody. unfold expands. split.
  - intros ([k' p'] & He & Hedge).
    apply edge_in_statements in Hedge as (Hig & Hi & imp & Himp & Hj).
    cbn [fst snd] in Hig, Hi, Himp, Hj.
    apply elem_of_edge_targets in Himp as (Hleaf & Hin & q' & Hq' & _).
    apply (elem_of_range range) in He; [|done].
    apply (id_in_inj _ _ _ Hok) in Hi; [|by eapply Hnamed..]. subst k'.
    apply (id_in_inj _ _ _ Hok) in Hj; [|by eapply Hnamed..]. subst imp.
    assert (p' = p) as -> by congruence. by rewrite Hleaf.
  - intros [Hexp Hin]. exists (k, p). split; [by apply (elem_of_range range)|].
    apply edge_in_statements. simpl. destruct (Hres k p Hk) as [_ Hig].
    split; [done|]. split; [done|]. exists l. split; [|done].
    apply elem_of_edge_targets. split; [by apply negb_true_iff in Hexp|].
    split; [done|]. exists q. split; [done|]. by destruct (Hres l q Hl).
Qed.

(** [app] imports [lib/b] in the three-package workspace. *)
Lemma edges_are_the_imports_among_stored_witness :
  exists run,
    main sample_provider map_to_list defaultFlags ["app"] (inl "/src") 3 = Some run /\
    EdgeStmt (id_in (alloc run) "app") (id_in (alloc run) "lib/b") ∈ stdout run.
Proof.
  eexists. split; [vm_compute; reflexivity|].
  refine (proj2 (edges_are_the_imports_among_stored sample_provider map_to_list
                   defaultFlags ["app"] (inl "/src"%string) 3 _ "app" "lib/b"
                   (pkg_of "app" false ["lib/a"; "lib/b"]) (pkg_of "lib/b" false [])
                   eq_refl eq_refl range_ok_map_to_list _ _ _) _).
  - vm_compute. discriminate.
  - vm_compute. reflexivity.
  - vm_compute. reflexivity.
  - split; [reflexivity|]. change ("lib/b"%string ∈ ["lib/a"; "lib/b"]%string).
    right. left.
Defined.
